(** * nitorch: registration helpers, phase fitting and the image viewer

    A shallow embedding of three modules of nitorch:
    - [nitorch/nn/experimental/_classic.py]  (module [Classic]),
    - [nitorch/tools/qmri/fieldmaps/phase.py] (module [Phase]),
    - [nitorch/plot/gui.py]                   (module [Gui]).

    Conventions.  Python exceptions are values of [exn] carried by the
    [result] monad.  Floating-point numbers are those of module [IEEE]:
    finite rationals, infinities and [nan], every operation rounding to
    the nearest number of the format; [_grid_auto], the cast of
    [prepare] and [derivatives64] compute with them.  Where the code
    evaluates transcendental formulas ([exp], [cos], [sqrt], ...) the
    statements of [Phase] and of the [aspect] setter are about these
    formulas in exact arithmetic, on the real numbers of the Standard
    Library, and say so; the coordinates of the [fov] and [index]
    setters are rationals.  Functions of libraries outside these three
    files ([io.map], [spatial.affine_default], [core.linalg.expm], the
    losses, the optimiser, ...) are section variables. *)

From Stdlib Require Import ZArith QArith Qround Qminmax Qpower Qabs Reals Lra Lia List String.
From Stdlib Require Lqa.
From stdpp Require Import base option list gmap strings.
Import ListNotations.

(** ** Exceptions *)

Inductive exn : Set :=
| TypeError
| IndexError
| ValueError
| AttributeError
| ZeroDivisionError
| OverflowError
| AssertionError.

Inductive result (A : Type) : Type :=
| Ok (a : A)
| Raise (e : exn).
Arguments Ok {A} a.
Arguments Raise {A} e.

Definition rbind {A B} (m : result A) (k : A -> result B) : result B :=
  match m with
  | Ok a => k a
  | Raise e => Raise e
  end.

Declare Scope result_scope.
Delimit Scope result_scope with result.
Notation "'let*' x ':=' m 'in' k" := (rbind m (fun x => k))
  (at level 10, x pattern, m at level 100, k at level 200) : result_scope.
Open Scope result_scope.

Fixpoint mapR {A B} (f : A -> result B) (l : list A) : result (list B) :=
  match l with
  | [] => Ok []
  | x :: l' =>
      let* y := f x in
      let* ys := mapR f l' in
      Ok (y :: ys)
  end.

(** ** Floating-point numbers

    The numbers of the IEEE 754 binary formats, with the arithmetic that
    Python floats, numpy scalars and torch tensors share: every
    operation returns the number of the format nearest to the exact
    result, ties going to the even significand, and nothing raises.  A
    finite number is a sign and a rational magnitude, so that the two
    zeros are apart. *)

Module IEEE.

Local Open Scope Q_scope.

(** A format: the bits of the significand, the exponent of the smallest
    positive number and the exponent of the first power of two that is
    too large. *)
Record format : Set := mkFormat { prec : Z; emin : Z; emax : Z }.

Definition binary16 : format := mkFormat 11 (-24) 16.
Definition binary32 : format := mkFormat 24 (-149) 128.
Definition binary64 : format := mkFormat 53 (-1074) 1024.

Inductive float : Set :=
| Finite (neg : bool) (mag : Q)
| Infinity (neg : bool)
| NaN.

(** The integer nearest to [y], the even one of two that are as near. *)
Definition rne (y : Q) : Z :=
  let f := Qfloor y in
  match Qcompare (y - inject_Z f) (1 # 2) with
  | Lt => f
  | Gt => (f + 1)%Z
  | Eq => if Z.even f then f else (f + 1)%Z
  end.

(** The exponent [e] with [2 ^ e <= x < 2 ^ (e + 1)], for [0 < x]. *)
Definition floor_log2 (x : Q) : Z :=
  let e := (Z.log2 (Qnum x) - Z.log2 (Zpos (Qden x)))%Z in
  if Qle_bool (2 ^ e) x then e else (e - 1)%Z.

(** The exponent of the unit in the last place of the numbers of the
    format around [x]. *)
Definition ulp_exp (fmt : format) (x : Q) : Z :=
  Z.max (floor_log2 x - (prec fmt - 1)) (emin fmt).

(** The magnitude [0 < x] rounded to a multiple of that unit. *)
Definition round_mag (fmt : format) (x : Q) : Q :=
  let e := ulp_exp fmt x in
  Qred (inject_Z (rne (x / 2 ^ e)) * 2 ^ e).

(** The number of the format nearest to the exact result of sign [neg]
    and magnitude [x]. *)
Definition round (fmt : format) (neg : bool) (x : Q) : float :=
  if Qeq_bool x 0 then Finite neg 0
  else
    let r := round_mag fmt x in
    if Qle_bool (2 ^ emax fmt) r then Infinity neg else Finite neg r.

Definition value (neg : bool) (mag : Q) : Q := if neg then - mag else mag.

(** A number taken to another format. *)
Definition convert (fmt : format) (x : float) : float :=
  match x with
  | Finite s m => round fmt s m
  | _ => x
  end.

Definition fneg (x : float) : float :=
  match x with
  | Finite s m => Finite (negb s) m
  | Infinity s => Infinity (negb s)
  | NaN => NaN
  end.

Definition fabs (x : float) : float :=
  match x with
  | Finite _ m => Finite false m
  | Infinity _ => Infinity false
  | NaN => NaN
  end.

Definition fadd (fmt : format) (x y : float) : float :=
  match x, y with
  | NaN, _ | _, NaN => NaN
  | Infinity s, Infinity t => if Bool.eqb s t then Infinity s else NaN
  | Infinity s, Finite _ _ | Finite _ _, Infinity s => Infinity s
  | Finite s m, Finite t n =>
      let v := value s m + value t n in
      if Qeq_bool v 0 then Finite (s && t) 0
      else round fmt (negb (Qle_bool 0 v)) (Qabs v)
  end.

Definition fsub (fmt : format) (x y : float) : float := fadd fmt x (fneg y).

Definition fmul (fmt : format) (x y : float) : float :=
  match x, y with
  | NaN, _ | _, NaN => NaN
  | Infinity s, Infinity t => Infinity (xorb s t)
  | Infinity s, Finite t m | Finite t m, Infinity s =>
      if Qeq_bool m 0 then NaN else Infinity (xorb s t)
  | Finite s m, Finite t n => round fmt (xorb s t) (m * n)
  end.

Definition fdiv (fmt : format) (x y : float) : float :=
  match x, y with
  | NaN, _ | _, NaN => NaN
  | Infinity _, Infinity _ => NaN
  | Infinity s, Finite t _ => Infinity (xorb s t)
  | Finite s _, Infinity t => Finite (xorb s t) 0
  | Finite s m, Finite t n =>
      if Qeq_bool n 0
      then (if Qeq_bool m 0 then NaN else Infinity (xorb s t))
      else round fmt (xorb s t) (m / n)
  end.

(** [x < y] *)
Definition flt (x y : float) : bool :=
  match x, y with
  | NaN, _ | _, NaN => false
  | Infinity s, Infinity t => s && negb t
  | Infinity s, Finite _ _ => s
  | Finite _ _, Infinity t => negb t
  | Finite s m, Finite t n => negb (Qle_bool (value t n) (value s m))
  end.

(** [x == y]: the two zeros are equal, [nan] is equal to nothing. *)
Definition feq (x y : float) : bool :=
  match x, y with
  | Finite s m, Finite t n => Qeq_bool (value s m) (value t n)
  | Infinity s, Infinity t => Bool.eqb s t
  | _, _ => false
  end.

(** What an overflow leaves behind. *)
Definition inf_or_nan (x : float) : Prop := x = Infinity false \/ x = NaN.

End IEEE.

(** ** [nitorch/nn/experimental/_classic.py] *)

Module Classic.

(** *** Tensors, as far as [prepare] looks at them *)

Inductive device : Set := Cpu | Cuda (index : nat).
Inductive dtype : Set := Float16 | Float32 | Float64 | Int32 | Int64 | Uint8.

#[global] Instance dtype_eq_dec : EqDecision dtype.
Proof. solve_decision. Defined.

(** The entries of a tensor of any dtype are finite numbers, infinities
    or [nan]. *)
Record tensor : Type := mkTensor {
  t_device : device;
  t_dtype : dtype;
  t_shape : list nat;
  t_values : list IEEE.float
}.

(** A file opened by [io.map]: what [fdata(rand=True)] reads and the
    embedded orientation. *)
Record mapped_array : Type := mkMapped {
  m_fdata : tensor;
  m_affine : tensor
}.

(** The Python values that reach [prepare].  A raw array is a tensor
    ([torch.as_tensor] is the identity on it); a Python list is caught by
    the [isinstance(inp, (list, tuple))] test before [as_tensor] sees it. *)
#[warnings="-register-all"]
Inductive pyval : Type :=
| PStr (path : string)
| PMapped (m : mapped_array)
| PTensor (t : tensor)
| PList (items : list pyval)
| PTuple (items : list pyval).

(** [x[i]] *)
Definition getitem (x : pyval) (i : nat) : result pyval :=
  match x with
  | PList l | PTuple l =>
      match l !! i with
      | Some v => Ok v
      | None => Raise IndexError
      end
  | _ => Raise TypeError
  end.

(** [x[i] = v]: a list is updated, a tuple refuses item assignment. *)
Definition setitem (x : pyval) (i : nat) (v : pyval) : result pyval :=
  match x with
  | PList l => if decide (i < length l)%nat then Ok (PList (<[i := v]> l))
               else Raise IndexError
  | _ => Raise TypeError
  end.

Definition as_tensor (x : pyval) : result tensor :=
  match x with
  | PTensor t => Ok t
  | _ => Raise TypeError
  end.

Section Prepare.

(** The conversion of one entry to an integer dtype, which torch leaves
    to the platform where the entry is out of range; [prepare] asks for
    [float32] only. *)
Variable to_integer : dtype -> IEEE.float -> IEEE.float.

(** The conversion of one entry to a dtype: to a floating-point dtype the
    entry is rounded to the nearest number of its format. *)
Definition cast (dt : dtype) (v : IEEE.float) : IEEE.float :=
  match dt with
  | Float16 => IEEE.convert IEEE.binary16 v
  | Float32 => IEEE.convert IEEE.binary32 v
  | Float64 => IEEE.convert IEEE.binary64 v
  | Int32 | Int64 | Uint8 => to_integer dt v
  end.

(** [tensor.to(device=..., dtype=...)]: an absent keyword keeps the
    field, and the entries are converted when the dtype changes. *)
Definition tensor_to (t : tensor) (dev : option device) (dt : option dtype) : tensor :=
  let dt := default (t_dtype t) dt in
  mkTensor (default (t_device t) dev) dt (t_shape t)
           (if decide (t_dtype t = dt) then t_values t else map (cast dt) (t_values t)).

(** [x.to(device=..., dtype=...)] *)
Definition py_to (x : pyval) (dev : option device) (dt : option dtype) : result pyval :=
  match x with
  | PTensor t => Ok (PTensor (tensor_to t dev dt))
  | _ => Raise AttributeError
  end.

(** [io.map(path)] and [spatial.affine_default(shape)] *)
Variable io_map : string -> result mapped_array.
Variable affine_default : list nat -> tensor.

Fixpoint prepare_one (inp : pyval) : result pyval :=
  match inp with
  | PList items | PTuple items =>
      let has_aff := bool_decide (1 < length items)%nat in
      let aff0 := items !! 1%nat in
      let* r := match items with
                | first :: _ => prepare_one first
                | [] => Raise IndexError
                end in
      let* inp' := getitem r 0 in
      let* aff := getitem r 1 in
      let aff := if has_aff then default aff aff0 else aff in
      Ok (PTuple [inp'; aff])
  | PStr path =>
      let* m := io_map path in
      Ok (PTuple [PTensor (m_fdata m); PTensor (m_affine m)])
  | PMapped m =>
      Ok (PTuple [PTensor (m_fdata m); PTensor (m_affine m)])
  | PTensor t =>
      Ok (PList [PTensor t; PTensor (affine_default (t_shape t))])
  end.

(** One round of the final loop: [prepared[i][0]] and [prepared[i][1]]
    are moved to the backend. *)
Definition to_backend (dev : device) (dt : dtype) (p : pyval) : result pyval :=
  let* x := getitem p 0 in
  let* x := py_to x (Some dev) (Some dt) in
  let* p := setitem p 0 x in
  let* a := getitem p 1 in
  let* a := py_to a (Some dev) (Some dt) in
  setitem p 1 a.

Definition prepare (inputs : list pyval) (dev : option device) : result (list pyval) :=
  let* prepared := mapR prepare_one inputs in
  let* p0 := match prepared !! 0%nat with
             | Some p => Ok p
             | None => Raise IndexError
             end in
  let* x := getitem p0 0 in
  let* x := py_to x dev (Some Float32) in
  let* p0 := setitem p0 0 x in
  let prepared := <[0%nat := p0]> prepared in
  let* t := as_tensor x in
  mapR (to_backend (t_device t) (t_dtype t)) prepared.

(** [get_backend(tensor)] *)
Definition get_backend (t : tensor) : dtype * device := (t_dtype t, t_device t).

(** What the backend invariant says of one prepared entry. *)
Definition on_backend (dev : device) (dt : dtype) (p : pyval) : Prop :=
  exists x a, p = PList [PTensor x; PTensor a]
    /\ get_backend x = (dt, dev) /\ get_backend a = (dt, dev).

End Prepare.

(** *** The optimisation loop shared by [affine] and [diffeo]

    [S] is everything an iteration updates (the parameters with their
    gradient buffers and the optimiser), [Img] an image and [L] a loss
    value.  The loop body is written once and instantiated with the
    forward pass of each entry point. *)

Inductive event (L : Type) : Type :=
| EPull                                   (* moved = pull(...) *)
| ELoss (loss_val : L)                    (* loss_val = loss(moved, target) *)
| EBackward                               (* loss_val.backward() *)
| EStep                                   (* optim.step() *)
| EPrint (n_iter : nat) (loss_val crit : L)
| ENewline                                (* print('') *)
| ENoGradPull.                            (* moved = pull(...) under no_grad *)
Arguments EPull {L}.
Arguments ELoss {L} loss_val.
Arguments EBackward {L}.
Arguments EStep {L}.
Arguments EPrint {L} n_iter loss_val crit.
Arguments ENewline {L}.
Arguments ENoGradPull {L}.

Record loop_state (S L : Type) : Type := mkLoop {
  ls_vars : S;               (* parameters (and velocity), optimiser *)
  ls_loss : L;               (* loss_val *)
  ls_iters : nat;            (* iterations entered so far *)
  ls_trace : list (event L)
}.
Arguments mkLoop {S L}.
Arguments ls_vars {S L}.
Arguments ls_loss {S L}.
Arguments ls_iters {S L}.
Arguments ls_trace {S L}.

Section OptimLoop.

Context {S L : Type}.
Variable forward : S -> L.            (* pull, then the loss *)
Variable backward : L -> S -> S.      (* loss_val.backward() *)
Variable optim_step : S -> S.         (* optim.step() *)
Variable lsub : L -> L -> L.          (* loss_val0 - loss_val *)
Variable abs_lt : L -> bool.          (* crit.abs() < tolerance *)

(** [for n_iter in range(max_iter)], [todo] iterations still allowed. *)
Fixpoint optim_loop (todo n_iter : nat) (st : loop_state S L) : loop_state S L :=
  match todo with
  | O => st
  | Datatypes.S todo' =>
      let loss_val0 := ls_loss st in
      let loss_val := forward (ls_vars st) in
      let vars := optim_step (backward loss_val (ls_vars st)) in
      let crit := lsub loss_val0 loss_val in
      let printed :=
        if (n_iter mod 10 =? 0)%nat then [EPrint n_iter loss_val crit] else [] in
      let st' := mkLoop vars loss_val (Datatypes.S (ls_iters st))
                   (ls_trace st ++ [EPull; ELoss loss_val; EBackward; EStep]
                                ++ printed) in
      if abs_lt crit then st' else optim_loop todo' (Datatypes.S n_iter) st'
  end.

(** The run when nothing stops it: variables before iteration [i],
    the loss it computes and the improvement it reports. *)
Variable inf : L.
Variable vars0 : S.

Fixpoint vars_at (i : nat) : S :=
  match i with
  | O => vars0
  | Datatypes.S j => optim_step (backward (forward (vars_at j)) (vars_at j))
  end.

Definition loss_at (i : nat) : L := forward (vars_at i).

Definition prev_loss (i : nat) : L :=
  match i with
  | O => inf
  | Datatypes.S j => loss_at j
  end.

Definition crit_at (i : nat) : L := lsub (prev_loss i) (loss_at i).

Definition iter_events (i : nat) : list (event L) :=
  [EPull; ELoss (loss_at i); EBackward; EStep]
    ++ (if (i mod 10 =? 0)%nat then [EPrint i (loss_at i) (crit_at i)] else []).

Definition run_loop (max_iter : nat) : loop_state S L :=
  optim_loop max_iter 0 (mkLoop vars0 inf 0 []).

(** What the specification says of a finished loop. *)
Definition loop_spec (max_iter : nat) (st : loop_state S L) : Prop :=
  (ls_iters st <= max_iter)%nat
  /\ ls_trace st = concat (map iter_events (seq 0 (ls_iters st)))
  /\ ls_vars st = vars_at (ls_iters st)
  /\ (forall i, (i < ls_iters st)%nat ->
                abs_lt (crit_at i) = true -> ls_iters st = Datatypes.S i)
  /\ ((ls_iters st < max_iter)%nat ->
      exists i, ls_iters st = Datatypes.S i /\ abs_lt (crit_at i) = true).

End OptimLoop.

(** *** Homogeneous matrices, as lists of rows over a scalar type *)

Section Matrices.

Context {K : Type}.
Variables (kzero : K) (kadd ksub kmul : K -> K -> K).

Definition matrix : Type := list (list K).

Definition vadd (u v : list K) : list K := zip_with kadd u v.
Definition vsub (u v : list K) : list K := zip_with ksub u v.
Definition dot (u v : list K) : K := foldr kadd kzero (zip_with kmul u v).

(** [core.linalg.matvec(A, v)] *)
Definition matvec (A : matrix) (v : list K) : list K := map (fun row => dot row v) A.

(** [A[:-1, -1]] *)
Definition trans_col (A : matrix) : list K :=
  map (fun row => List.last row kzero) (removelast A).

(** [A[:-1, :-1]] *)
Definition lin_block (A : matrix) : matrix := map (@removelast K) (removelast A).

(** [A[:-1, -1] = v] *)
Definition set_trans_col (A : matrix) (v : list K) : matrix :=
  zip_with (fun row x => removelast row ++ [x]) (removelast A) v
    ++ [List.last A []].

(** The rows of [A] all have [n] entries and there are [n] of them. *)
Definition square (n : nat) (A : matrix) : Prop :=
  length A = n /\ Forall (fun row => length row = n) A.

(** Lines 153-156 and 275-278: the centre shift is folded back. *)
Definition undo_shift (aff : matrix) (shift : list K) : matrix :=
  let aff := set_trans_col aff (vsub (trans_col aff) shift) in
  let shift := matvec (lin_block aff) shift in
  set_trans_col aff (vadd (trans_col aff) shift).

(** The same matrix in the words of the specification: the translation
    column of [M0] less the shift, plus the linear block of [M0] applied
    to the shift. *)
Definition undo_shift_spec (M0 : matrix) (shift : list K) : matrix :=
  set_trans_col M0
    (vadd (vsub (trans_col M0) shift) (matvec (lin_block M0) shift)).

(** The matrix of the specification once more, entry by entry and
    without the slices of the code.  With [D] the length of the shift,
    row [i] of the first [D] rows of [M0] keeps its first [D] entries
    [a_1 ... a_D] and ends in [(t - s_i) + (a_1 s_1 + ... + a_D s_D)],
    [t] being entry [D] of the row; the rows after them are kept. *)
Definition recentred (M0 : matrix) (shift : list K) : matrix :=
  let D := length shift in
  imap (fun i row =>
          if decide (i < D)%nat
          then take D row
               ++ [kadd (ksub (nth D row kzero) (nth i shift kzero))
                        (foldr kadd kzero (zip_with kmul (take D row) shift))]
          else row) M0.

End Matrices.

(** *** [affine] and [diffeo] from the optimisation loop on

    What comes before the loop (preparation, rescaling to [0, 1], the
    centre [shift], the basis, the initial parameters and the optimiser)
    is input here: [shift] is the vector computed on lines 95-96 and
    213-214, [s0] the variables the loop starts from.  [origin] is
    ['center'] or anything else. *)

Inductive origin : Set := Native | Center.

Section Registration.

Context {K Q_ V Img Opt L : Type}.
(* Q_: the affine parameters, V: the velocity field *)
Variables (kzero : K) (kadd ksub kmul : K -> K -> K).
Variable expm : Q_ -> @matrix K.               (* core.linalg.expm(q, basis) *)
Variable inverse : @matrix K -> @matrix K.     (* aff.inverse() *)
Variable lsub : L -> L -> L.
Variable abs_lt : L -> bool.
Variable inf : L.

Definition final_matrix (org : origin) (shift : list K) (q : Q_) : @matrix K :=
  let aff := expm q in
  let aff := match org with
             | Center => undo_shift kzero kadd ksub kmul aff shift
             | Native => aff
             end in
  inverse aff.

Section Affine.
Variable pull : Q_ -> Img.
Variable loss : Img -> Img -> L.
Variable backward : L -> Q_ * Opt -> Q_ * Opt.
Variable optim_step : Q_ * Opt -> Q_ * Opt.
Variable target : Img.

Definition affine_forward (s : Q_ * Opt) : L := loss (pull (fst s)) target.

Definition affine_loop (max_iter : nat) (s0 : Q_ * Opt) : loop_state (Q_ * Opt) L :=
  optim_loop affine_forward backward optim_step lsub abs_lt
             max_iter 0 (mkLoop s0 inf 0 []).

(** Lines 130-159.  Returns [(aff, moved)] and the trace of what was
    done. *)
Definition affine (max_iter : nat) (org : origin) (shift : list K) (s0 : Q_ * Opt)
  : (@matrix K * Img) * list (event L) :=
  let st := affine_loop max_iter s0 in
  let parameters := fst (ls_vars st) in
  let moved := pull parameters in
  ((final_matrix org shift parameters, moved),
   ls_trace st ++ [ENewline; ENoGradPull]).
End Affine.

Section Diffeo.
Variable pull : Q_ -> V -> Img.
Variable image_loss : Img -> Img -> L.
Variable vel_loss : V -> L.
Variable ladd : L -> L -> L.
Variable ltenth : L -> L.                     (* 0.1 * x *)
Variable backward : L -> Q_ * V * Opt -> Q_ * V * Opt.
Variable optim_step : Q_ * V * Opt -> Q_ * V * Opt.
Variable target : Img.

Definition diffeo_forward (s : Q_ * V * Opt) : L :=
  let '(parameters, velocity, _) := s in
  ladd (image_loss (pull parameters velocity) target) (ltenth (vel_loss velocity)).

Definition diffeo_loop (max_iter : nat) (s0 : Q_ * V * Opt)
  : loop_state (Q_ * V * Opt) L :=
  optim_loop diffeo_forward backward optim_step lsub abs_lt
             max_iter 0 (mkLoop s0 inf 0 []).

(** Lines 252-281.  Returns [(aff, velocity, moved)] and the trace of
    what was done. *)
Definition diffeo (max_iter : nat) (org : origin) (shift : list K) (s0 : Q_ * V * Opt)
  : (@matrix K * V * Img) * list (event L) :=
  let st := diffeo_loop max_iter s0 in
  let '(parameters, velocity, _) := ls_vars st in
  let moved := pull parameters velocity in
  ((final_matrix org shift parameters, velocity, moved),
   ls_trace st ++ [ENewline; ENoGradPull]).
End Diffeo.

End Registration.

(** The progress lines among the events. *)
Definition is_print {L : Type} (e : event L) : bool :=
  match e with
  | EPrint _ _ _ => true
  | _ => false
  end.

(** *** Rescaling to [0, 1] (lines 83-91 and 201-209)

    [x -= x.min(); x /= x.max() - x.min()], both extremes being read
    before the image is changed.  The entries are rationals. *)

Inductive rescaled : Type :=
| Rescaled (x : list Q)
| EmptyTensor          (* [min()] of an empty tensor raises *)
| NotFinite.           (* a constant image: every entry is 0 / 0 *)

Definition tensor_min (x0 : Q) (rest : list Q) : Q := foldr Qmin x0 rest.
Definition tensor_max (x0 : Q) (rest : list Q) : Q := foldr Qmax x0 rest.

Definition rescale (source : list Q) : rescaled :=
  match source with
  | [] => EmptyTensor
  | x0 :: rest =>
      let source_min := tensor_min x0 rest in
      let source_max := tensor_max x0 rest in
      let source := map (fun v => v - source_min)%Q source in
      let range := (source_max - source_min)%Q in
      if Qeq_bool range 0 then NotFinite
      else Rescaled (map (fun v => v / range)%Q source)
  end.

End Classic.

(** ** [nitorch/tools/qmri/fieldmaps/phase.py] *)

Module Phase.

Local Open Scope R_scope.

(** A tensor is the list of its voxels; the functions below act voxel by
    voxel, so the spatial shape plays no part. *)
Definition tsum (x : list R) : R := foldr Rplus 0 x.
Definition tmean (x : list R) : R := tsum x / INR (length x).
Definition tmul (x y : list R) : list R := zip_with Rmult x y.
Definition tadd (x y : list R) : list R := zip_with Rplus x y.
Definition tsub (x y : list R) : list R := zip_with Rminus x y.
Definition tscale (c : R) (x : list R) : list R := map (Rmult c) x.

(** [torch.atan2(y, x)]: the angle of the point [(x, y)], in [(-PI, PI]]. *)
Definition atan2 (y x : R) : R :=
  if Rlt_dec 0 x then atan (y / x)
  else if Rlt_dec x 0 then
    (if Rle_dec 0 y then atan (y / x) + PI else atan (y / x) - PI)
  else if Rlt_dec 0 y then PI / 2
  else if Rlt_dec y 0 then - (PI / 2)
  else 0.

(** [mean_phase] in exact arithmetic, on an image that is not empty
    and, when a weight is given, on a weight of the shape of the image
    whose sum is not zero.  Elsewhere torch gives [nan], broadcasts or
    raises, and the number below stands for nothing. *)
Definition mean_phase (phase : list R) (weight : option (list R)) : R :=
  match weight with
  | Some weight =>
      let sumw := tsum weight in
      let mean_cos := tsum (tmul (map cos phase) weight) / sumw in
      let mean_sin := tsum (tmul (map sin phase) weight) / sumw in
      atan2 mean_sin mean_cos
  | None =>
      let mean_cos := tmean (map cos phase) in
      let mean_sin := tmean (map sin phase) in
      atan2 mean_sin mean_cos
  end.

(** The means in the words of the specification. *)
Definition weighted_mean (x weight : list R) : R :=
  tsum (zip_with (fun v w => v * w) x weight) / tsum weight.
Definition arithmetic_mean (x : list R) : R := tsum x / INR (length x).

(** [derivatives] in exact arithmetic, on four images of one shape: the
    formulas of the code on real numbers.  The buffers [g] and [h] are
    overwritten in full, so they are results only.  Returns
    [(ll, (g[0], g[1]), (h[0], h[1]))].  The code evaluates these
    formulas on float tensors, where every operation rounds and can
    overflow: that is [derivatives64] below. *)
Definition derivatives (magnitude phase fit_log_magnitude fit_phase : list R)
  : R * (list R * list R) * (list R * list R) :=
  let fit_magnitude := map exp fit_log_magnitude in
  let prod_phase :=
    tadd (tmul (map cos phase) (map cos fit_phase))
         (tmul (map sin phase) (map sin fit_phase)) in
  let prod_phase := tmul prod_phase magnitude in
  let prod_phase_grad :=
    tsub (tmul (map cos phase) (map sin fit_phase))
         (tmul (map sin phase) (map cos fit_phase)) in
  let prod_phase_grad := tmul prod_phase_grad magnitude in
  let g0 := tmul fit_magnitude (tsub fit_magnitude prod_phase) in
  let g1 := tmul fit_magnitude prod_phase_grad in
  let h0 := tadd (tmul fit_magnitude fit_magnitude) (map Rabs g0) in
  let h1 := tmul fit_magnitude fit_magnitude in
  let ll :=
    tsub (tscale (5 / 10)
            (tadd (tmul magnitude magnitude) (tmul fit_magnitude fit_magnitude)))
         (tmul fit_magnitude prod_phase) in
  let ll := tsum ll in
  (ll, (g0, g1), (h0, h1)).

(** [derivatives] as torch evaluates it on float64 tensors of one
    shape.  Sums, differences and products are those of binary64; [exp],
    [cos] and [sin] are the functions of torch on one entry, which the
    model leaves open; [ll.sum()] adds the voxels from the left. *)
Section Derivatives64.

Import IEEE.

Variables fexp fcos fsin : float -> float.

Definition fsum (x : list float) : float :=
  foldl (fadd binary64) (Finite false 0%Q) x.

Definition derivatives64 (magnitude phase fit_log_magnitude fit_phase : list float)
  : float * (list float * list float) * (list float * list float) :=
  let mul := zip_with (fmul binary64) in
  let add := zip_with (fadd binary64) in
  let sub := zip_with (fsub binary64) in
  let fit_magnitude := map fexp fit_log_magnitude in
  let prod_phase :=
    add (mul (map fcos phase) (map fcos fit_phase))
        (mul (map fsin phase) (map fsin fit_phase)) in
  let prod_phase := mul prod_phase magnitude in
  let prod_phase_grad :=
    sub (mul (map fcos phase) (map fsin fit_phase))
        (mul (map fsin phase) (map fcos fit_phase)) in
  let prod_phase_grad := mul prod_phase_grad magnitude in
  let g0 := mul fit_magnitude (sub fit_magnitude prod_phase) in
  let g1 := mul fit_magnitude prod_phase_grad in
  let h0 := add (mul fit_magnitude fit_magnitude) (map fabs g0) in
  let h1 := mul fit_magnitude fit_magnitude in
  let ll :=
    sub (map (fmul binary64 (Finite false (1 # 2)%Q))
             (add (mul magnitude magnitude) (mul fit_magnitude fit_magnitude)))
        (mul fit_magnitude prod_phase) in
  let ll := fsum ll in
  (ll, (g0, g1), (h0, h1)).

End Derivatives64.

(** *** [phase_fit] *)

(** The keyword arguments handed to the regulariser and to the solver. *)
Record prm : Type := mkPrm {
  membrane : list R;
  bending : list R;
  bound : string
}.

(** [int(a == b)] on strings *)
Definition int_eq (a b : string) : R := if String.eqb a b then 1 else 0.

(** [l[-1]] and [l[-1] = v] on a list that is never empty here. *)
Definition get_last (l : list R) : R := List.last l 0.
Definition set_last (l : list R) (v : R) : list R := <[(length l - 1)%nat := v]> l.

(** A float that may be non-finite: [None] is [inf] or [nan].  A sum, a
    difference or a product with a non-finite operand is non-finite, a
    finite number divided by [inf] is 0, and [abs(x) < c] is false when
    [x] is not finite. *)
Definition xfloat : Type := option R.
Definition xlift2 (f : R -> R -> R) (a b : xfloat) : xfloat :=
  match a, b with
  | Some x, Some y => Some (f x y)
  | _, _ => None
  end.
Definition xdiv_fin (a : R) (b : xfloat) : xfloat :=
  match b with
  | Some y => Some (a / y)
  | None => Some 0
  end.
Definition xabs_lt (a : xfloat) (c : R) : bool :=
  match a with
  | Some x => if Rlt_dec (Rabs x) c then true else false
  | None => false
  end.

(** [1 + 10 ** (5 - n_iter)] *)
Definition factor_at (n_iter : nat) : R := 1 + powerRZ 10 (5 - Z.of_nat n_iter).

Record fit_state : Type := mkFit {
  fit : list R * list R;          (* fit[0], fit[1] *)
  ll0 : xfloat;
  lr0 : xfloat;
  factor : xfloat;
  opts : prm;
  used : list prm                 (* the options of each iteration so far *)
}.

Section PhaseFit.

(** [spatial.regulariser] and [spatial.solve_field_fmg] *)
Variable regulariser : list R * list R -> prm -> list R * list R.
Variable solve_field_fmg :
  list R * list R -> list R * list R -> prm -> list R * list R.

Definition pair_map2 (f : list R -> list R -> list R)
           (a b : list R * list R) : list R * list R :=
  (f (fst a) (fst b), f (snd a) (snd b)).
Definition pair_scale (c : R) (a : list R * list R) : list R * list R :=
  (tscale c (fst a), tscale c (snd a)).

(** [dot(x, y)] on the two stacked channels *)
Definition dot (x y : list R * list R) : R :=
  tsum (tmul (fst x ++ snd x) (fst y ++ snd y)).

Variables (magnitude phase : list R).
Variable prec : R.                         (* the noise precision *)
Variable lam0_membrane lam0_bending : R.   (* the dictionary [lam0] *)

(** One iteration; the boolean tells whether it ends in [break]. *)
Definition fit_body (n_iter : nat) (st : fit_state) : fit_state * bool :=
  let n := INR (length magnitude) in
  (* decrease regularization *)
  let factor_prev := factor st in
  let factor := factor_at n_iter in
  let factor_ratio :=
    if (n_iter =? 0)%nat then None else xdiv_fin factor factor_prev in
  let p := opts st in
  let p := mkPrm (set_last (membrane p) (lam0_membrane * factor))
                 (bending p) (bound p) in
  let p := mkPrm (membrane p)
                 (set_last (bending p) (lam0_bending * factor)) (bound p) in
  (* compute derivatives *)
  let '(ll, g, h) := derivatives magnitude phase (fst (fit st)) (snd (fit st)) in
  let ll := ll * prec in
  let g := pair_scale prec g in
  let h := pair_scale prec h in
  (* compute regularization *)
  let reg := regulariser (fit st) p in
  let lr := 5 / 10 * dot (fit st) reg in
  let g := pair_map2 tadd g reg in
  (* Gauss-Newton step *)
  let fit' := pair_map2 tsub (fit st) (solve_field_fmg h g p) in
  (* compute progress *)
  let l0 := xlift2 Rplus (ll0 st) (xlift2 Rmult factor_ratio (lr0 st)) in
  let l := ll + lr in
  let gain := xlift2 Rminus l0 (Some l) in
  if xabs_lt gain (n * (1 / 10000))
  then (mkFit fit' (ll0 st) (lr0 st) (Some factor) p (used st ++ [p]), true)
  else (mkFit fit' (Some ll) (Some lr) (Some factor) p (used st ++ [p]), false).

(** [for n_iter in range(20)], with [todo] iterations still allowed. *)
Fixpoint fit_loop (todo n_iter : nat) (st : fit_state) : fit_state :=
  match todo with
  | O => st
  | S todo' =>
      let '(st', stop) := fit_body n_iter st in
      if stop then st' else fit_loop todo' (S n_iter) st'
  end.

End PhaseFit.

Section PhaseFitEntry.

(** [estimate_noise(magnitude)[0]['sd']], [spatial.regulariser] and
    [spatial.solve_field_fmg] *)
Variable estimate_noise_sd : list R -> R.
Variable regulariser : list R * list R -> prm -> list R * list R.
Variable solve_field_fmg :
  list R * list R -> list R * list R -> prm -> list R * list R.

(** The options before the loop, and the run of [phase_fit] up to the
    end of the loop. *)
Definition initial_prm (lam : R * R) (penalty : string * string) : prm :=
  mkPrm [fst lam * int_eq (fst penalty) "membrane";
         snd lam * int_eq (snd penalty) "membrane"]
        [fst lam * int_eq (fst penalty) "bending";
         snd lam * int_eq (snd penalty) "bending"]
        "dct2".

Definition phase_fit_run (magnitude phase : list R)
           (lam : R * R) (penalty : string * string) : fit_state :=
  let sd := estimate_noise_sd magnitude in
  let prec := 1 / (sd * sd) in
  let fit0 := map ln (map (fun m => Rmax m (1 / 100000000)) magnitude) in
  let fit1 := map (fun _ => mean_phase phase (Some magnitude)) magnitude in
  let p := initial_prm lam penalty in
  let lam0_membrane := get_last (membrane p) in
  let lam0_bending := get_last (bending p) in
  fit_loop regulariser solve_field_fmg magnitude phase prec
           lam0_membrane lam0_bending
           20 0 (mkFit (fit0, fit1) None None None p []).

Definition phase_fit (magnitude phase : list R)
           (lam : R * R) (penalty : string * string) : list R * list R :=
  let st := phase_fit_run magnitude phase lam penalty in
  (map exp (fst (fit st)), snd (fit st)).

(** The options the specification expects at iteration [n_iter]: the
    first (log-magnitude) weights as [lam[0]] and [penalty[0]] set them,
    the last (phase) weights multiplied by [1 + 10^(5 - n_iter)], which
    is written here with powers of natural exponent, and without the
    factor of the code. *)
Definition prm_at (lam : R * R) (penalty : string * string) (n_iter : nat) : prm :=
  mkPrm [fst lam * int_eq (fst penalty) "membrane";
         snd lam * int_eq (snd penalty) "membrane" * (1 + 10 ^ 5 / 10 ^ n_iter)]
        [fst lam * int_eq (fst penalty) "bending";
         snd lam * int_eq (snd penalty) "bending" * (1 + 10 ^ 5 / 10 ^ n_iter)]
        "dct2".

(** The shape the options keep through the loop: two weights per
    penalty, the first ones being [m0] and [b0]. *)
Definition opts_shape (m0 b0 : R) (p : prm) : Prop :=
  (exists x, membrane p = [m0; x]) /\ (exists y, bending p = [b0; y])
  /\ bound p = "dct2"%string.

End PhaseFitEntry.

(** *** [nll] and the unit conversions *)

(** [nll] in exact arithmetic, on four images of one shape: the formula
    of the code on real numbers, which the float tensors of the code
    follow up to the rounding of every operation. *)
Definition nll (magnitude phase fit_log_magnitude fit_phase : list R) : list R :=
  let fit_magnitude := map exp fit_log_magnitude in
  let prod_phase :=
    tadd (tmul (map cos phase) (map cos fit_phase))
         (tmul (map sin phase) (map sin fit_phase)) in
  let prod_phase := tmul prod_phase magnitude in
  let ll :=
    tsub (tscale (5 / 10)
            (tadd (tmul magnitude magnitude) (tmul fit_magnitude fit_magnitude)))
         (tmul fit_magnitude prod_phase) in
  ll.

(** Voxel [i] of the four images [derivatives] and [nll] read, when all
    four have one. *)
Definition voxel (magnitude phase fit_log_magnitude fit_phase : list R) (i : nat)
  : option (R * R * R * R) :=
  m ← magnitude !! i; p ← phase !! i;
  fl ← fit_log_magnitude !! i; f ← fit_phase !! i;
  Some (m, p, fl, f).

(** Half the squared distance between the complex numbers
    [m * exp(i p)] and [e * exp(i f)]. *)
Definition half_sq_dist (m p e f : R) : R :=
  1 / 2 * (Rsqr (m * cos p - e * cos f) + Rsqr (m * sin p - e * sin f)).

(** [b0_rad_to_hz]: [if delta_frequency:] is the truth of a number. *)
Definition b0_rad_to_hz (phase : list R) (delta_te dwell delta_frequency : R) : list R :=
  let fmap := map (fun p => p / (delta_te * dwell * 2 * PI)) phase in
  if Req_dec_T delta_frequency 0 then fmap
  else map (fun v => v + delta_frequency) fmap.

Definition b0_hz_to_vox (fmap : list R) (bandwidth : R) : list R :=
  map (fun v => v / bandwidth) fmap.

End Phase.

(** ** [nitorch/plot/gui.py] *)

Module Gui.

(** *** [ImageArtist]: the instance dictionary *)

Inductive attr : Type :=
| ANone
| AMatrix (m : list (list Q))
| AShape (dims : list nat).

Abbreviation artist := (gmap string attr).

(** [getattr(self, name, dflt)] *)
Definition getattr (self : artist) (name : string) (dflt : attr) : attr :=
  default dflt (self !! name).

Section Artist.

(** [spatial.affine_default(shape)]; it may raise, e.g. on [None]. *)
Variable affine_default : attr -> result (list (list Q)).

Definition affine (self : artist) : attr := getattr self "_affine" ANone.
Definition shape (self : artist) : attr := getattr self "_shape" ANone.

(** The [affine] setter. *)
Definition affine_set (self : artist) (value : attr) : result artist :=
  let* self :=
    match value with
    | ANone =>
        let* dflt := affine_default (shape self) in
        Ok (<["_affine" := AMatrix dflt]> self)
    | _ => Ok self
    end in
  Ok (<["_affine" := value]> self).

End Artist.

(** *** [ImageViewer.fov] *)

(** A coordinate is a number or [None]. *)
Definition coord : Type := option Q.

(** What a corner of the field of view may be assigned: [None], or a
    sequence of coordinates (a tensor is flattened to one). *)
Inductive corner : Type :=
| CNone
| CSeq (coords : list coord).

(** Python truth of a coordinate: [None] and zero are false. *)
Definition truthy (c : coord) : bool :=
  match c with
  | Some q => negb (Qeq_bool q 0)
  | None => false
  end.

(** [a or b] *)
Definition py_or (a b : coord) : coord := if truthy a then a else b.

Definition is_None (c : coord) : bool :=
  match c with
  | None => true
  | Some _ => false
  end.

Section Fov.

(** [py.make_list(x, 3)] and [self._max_fov()] *)
Variable make_list : corner -> list coord.
Variable _max_fov : list Q * list Q.

Definition fov_set (value : option (corner * corner)) : list coord * list coord :=
  let value := default (CNone, CNone) value in
  let '(min, max) := value in
  let min := make_list min in
  let max := make_list max in
  if existsb is_None min || existsb is_None max then
    let '(min0, max0) := _max_fov in
    let min := zip_with (fun mn mn0 => py_or mn (Some mn0)) min min0 in
    let max := zip_with (fun mx mx0 => py_or mx (Some mx0)) max max0 in
    (min, max)
  else (min, max).

(** The specification's reading: an absent coordinate is filled, a
    supplied one is kept. *)
Definition fill (c : coord) (c0 : Q) : coord :=
  match c with
  | None => Some c0
  | Some q => Some q
  end.

End Fov.

(** An instance of [make_list] at length 3: [None] is replicated, a short
    sequence is padded with its last value and a long one is cropped. *)
Definition make_list3 (x : corner) : list coord :=
  match x with
  | CNone => [None; None; None]
  | CSeq l => take 3 (l ++ replicate (3 - length l) (default None (last l)))
  end.

(** *** [ImageViewer.size] and [ImageViewer.aspect] *)

Section Aspect.

Local Open Scope R_scope.

(** The figure, reduced to its size in inches. *)
Record figure : Type := mkFigure { size_inches : R * R }.

(** [fig.get_size_inches] called with the arguments [args]: the getter
    takes none. *)
Definition get_size_inches (fig : figure) (args : list R) : result (R * R) :=
  match args with
  | [] => Ok (size_inches fig)
  | _ => Raise TypeError
  end.

Definition size (fig : figure) : result (R * R) := get_size_inches fig [].

(** The [size] setter: the value is handed to [get_size_inches]. *)
Definition size_set (fig : figure) (value : list R) : result figure :=
  if negb (length value =? 2)%nat then Raise ValueError
  else
    let* _ := get_size_inches fig value in
    Ok fig.

(** [math.sqrt] and [/] on floats *)
Definition py_sqrt (x : R) : result R :=
  if Rlt_dec x 0 then Raise ValueError else Ok (sqrt x).
Definition py_div (x y : R) : result R :=
  if Req_dec_T y 0 then Raise ZeroDivisionError else Ok (x / y).

Definition aspect (fig : figure) : result R :=
  let* (s0, s1) := size fig in
  py_div s0 s1.

(** The size the [aspect] setter computes, ... *)
Definition aspect_target (fig : figure) (value : R) : result (R * R) :=
  let* (s0, s1) := size fig in
  let* area := py_sqrt (s0 * s1) in
  let* s0 := py_sqrt (area * value) in
  let* q := py_div area value in
  let* s1 := py_sqrt q in
  Ok (s0, s1).

(** ... and the setter itself. *)
Definition aspect_set (fig : figure) (value : R) : result figure :=
  let* (s0, s1) := aspect_target fig value in
  size_set fig [s0; s1].

End Aspect.

(** *** [ImageViewer._grid_auto] *)

Section Grid.

Import IEEE.
Local Open Scope Q_scope.

(** The numbers of [_grid_auto] are Python integers, Python floats and
    the numpy [float64] of the figure size.  The floats of both kinds
    are binary64 and their arithmetic never raises: a numpy scalar
    divided by zero is [inf] or [nan].  What can raise is the division
    of two integers, and an integer beyond the range of binary64 that
    meets a float. *)

(** [a / b] on Python integers: the binary64 nearest to the quotient. *)
Definition truediv (a b : Z) : result float :=
  if (b =? 0)%Z then Raise ZeroDivisionError
  else
    match round binary64 (xorb (a <? 0)%Z (b <? 0)%Z)
                (inject_Z (Z.abs a) / inject_Z (Z.abs b)) with
    | Infinity _ => Raise OverflowError
    | q => Ok q
    end.

(** An integer that meets a float in an operation. *)
Definition of_int (z : Z) : result float :=
  match round binary64 (z <? 0)%Z (inject_Z (Z.abs z)) with
  | Infinity _ => Raise OverflowError
  | x => Ok x
  end.

(** [math.ceil(x)] *)
Definition ceil (x : float) : result Z :=
  match x with
  | Finite s m => Ok (Qceiling (value s m))
  | Infinity _ => Raise OverflowError
  | NaN => Raise ValueError
  end.

(** [math.ceil(a / b)] on integers *)
Definition ceil_div (a b : Z) : result Z :=
  let* q := truediv a b in
  ceil q.

(** The literals [0.01] and [1] *)
Definition hundredth : float := round binary64 false (1 # 100).
Definition one : float := Finite false 1.

(** The body of the search loop: the column count and the score of
    [n_rows] rows. *)
Definition candidate (rh rw : Z) (aspect : float) (nb_image n_rows : Z)
  : result (Z * float) :=
  let* n_cols := ceil_div nb_image n_rows in
  let nr := (n_rows * rh)%Z in
  let nc := (n_cols * rw)%Z in
  let* inner_aspect := truediv nc nr in
  let inner_area := (nc * nr)%Z in
  let* outer_area :=
    (if flt inner_aspect aspect
     then let* a := of_int (nr * nr) in Ok (fmul binary64 a aspect)
     else let* a := of_int (nc * nc) in Ok (fdiv binary64 a aspect)) in
  let* inner_area := of_int inner_area in
  let empty_ratio :=
    fdiv binary64 (fsub binary64 outer_area inner_area) outer_area in
  let* spare := of_int ((n_rows * n_cols - nb_image) * (rh * rw)) in
  let empty_box := fdiv binary64 spare outer_area in
  let* elong := truediv (Z.max nr nc) (Z.min nr nc) in
  let compactness := fmul binary64 hundredth (fsub binary64 elong one) in
  let empty := fadd binary64 (fadd binary64 empty_box empty_ratio) compactness in
  Ok (n_cols, empty).

(** [for n_rows in range(1, nb_image + 1)] over the rows still to try. *)
Fixpoint search (rh rw : Z) (aspect : float) (nb_image : Z) (rows : list Z)
         (best_empty : option float) (best_size : option Z * option Z)
  : result (option Z * option Z) :=
  match rows with
  | [] => Ok best_size
  | n_rows :: rows' =>
      let* (n_cols, empty) := candidate rh rw aspect nb_image n_rows in
      let better :=
        match best_empty with
        | None => true
        | Some b => flt empty b
        end in
      if better
      then search rh rw aspect nb_image rows' (Some empty) (Some n_rows, Some n_cols)
      else search rh rw aspect nb_image rows' best_empty best_size
  end.

(** [range(1, n + 1)] *)
Definition range1 (n : Z) : list Z := map (fun i => Z.of_nat i) (seq 1 (Z.to_nat n)).

(** [_grid_auto]: [grid] is [self._grid], [layout] is [self.layout] and
    [fig_size] the figure size, a pair of numpy [float64], of which
    [self.aspect] is the width over the height. *)
Definition _grid_auto (grid : option Z * option Z) (layout : string)
           (fig_size : float * float) (nb_image : Z) : result (option Z * option Z) :=
  match grid with
  | (Some gx, Some gy) => Ok (Some gx, Some gy)
  | (None, Some gy) =>
      let* gx := ceil_div nb_image gy in
      Ok (Some gx, Some gy)
  | (Some gx, None) =>
      let* gy := ceil_div nb_image gx in
      Ok (Some gx, Some gy)
  | (None, None) =>
      let* (rh, rw) :=
        (if String.eqb layout "row" then Ok (1, 3)%Z
         else if String.eqb layout "col" then Ok (3, 1)%Z
         else if String.eqb layout "orth" then Ok (2, 2)%Z
         else Raise AssertionError) in
      let aspect := fdiv binary64 (fst fig_size) (snd fig_size) in
      search rh rw aspect nb_image (range1 nb_image) None (None, None)
  end.

(** A grid that holds all the images. *)
Definition covers (nb_image : Z) (size : option Z * option Z) : Prop :=
  exists r c, size = (Some r, Some c) /\ (nb_image <= r * c)%Z.

(** A count that binary64 holds together with every count below it: a
    positive integer below [2 ^ 53]. *)
Definition exact_count (n : Z) : Prop := (1 <= n < 2 ^ 53)%Z.

(** The grid settings with at most one dimension fixed, a fixed
    dimension being such a count of rows or columns. *)
Definition grid_open (grid : option Z * option Z) : Prop :=
  match grid with
  | (Some _, Some _) => False
  | (Some g, None) | (None, Some g) => exact_count g
  | (None, None) => True
  end.

End Grid.

(** *** [ordered_set] and the settings shared by the images *)

Section OrderedSet.

Context {A : Type} `{EqDecision A}.

(** [d[v] = None] on the keys of a dictionary, in insertion order. *)
Definition add_key (keys : list A) (v : A) : list A :=
  if decide (v ∈ keys) then keys else keys ++ [v].

(** [tuple({v: None for v in values}.keys())] *)
Definition ordered_set (values : list A) : list A := foldl add_key [] values.

(** The element [0] of [ordered_set] applied to the values. *)
Definition first_distinct (values : list A) : result A :=
  match ordered_set values with
  | v :: _ => Ok v
  | [] => Raise IndexError
  end.

End OrderedSet.

(** [str.lower] on ASCII text *)
Definition lower_ascii (c : Ascii.ascii) : Ascii.ascii :=
  let n := Ascii.nat_of_ascii c in
  if ((65 <=? n) && (n <=? 90))%nat then Ascii.ascii_of_nat (n + 32) else c.

Fixpoint lower (s : string) : string :=
  match s with
  | EmptyString => EmptyString
  | String c s' => String (lower_ascii c) (lower s')
  end.

(** The attributes [layout] and [mode] of an [ImageArtist]. *)
Record display : Type := mkDisplay {
  d_layout : string;
  d_mode : string
}.

(** The [layout] property of the viewer, over [self.images]. *)
Definition layout_get (images : list display) : result string :=
  first_distinct (map d_layout images).

Definition layout_set (images : list display) (value : string)
  : result (list display) :=
  let value := lower value in
  if negb (bool_decide (value ∈ ["row"; "col"; "orth"]))
  then Raise ValueError
  else Ok (map (fun image => mkDisplay value (d_mode image)) images).

(** [ImageArtist.set_layout(value, all)] called on [images[self]]:
    the attribute is assigned, then [propagate('layout')] copies it to
    every image that is not [self]. *)
Definition propagate_layout (images : list display) (self : nat) : list display :=
  match images !! self with
  | Some me =>
      imap (fun j image => if decide (j = self) then image
                           else mkDisplay (d_layout me) (d_mode image)) images
  | None => images
  end.

Definition set_layout (images : list display) (self : nat) (value : string)
           (all : bool) : list display :=
  let images := alter (fun me => mkDisplay value (d_mode me)) self images in
  if all then propagate_layout images self else images.

(** *** The data of an [ImageArtist]: [mmap], [fdata], [load], [clear] *)

Section ArtistData.

(** Voxel data; what [self.map.fdata()] reads stands for the handle. *)
Context {T : Type}.

Record store : Type := mkStore {
  st_map : option T;        (* [_map]: [None] or a handle with this data *)
  st_fdata : option T;      (* [_fdata] *)
  st_mmap : bool            (* [_mmap] *)
}.

(** The [fdata] property: the value read and the artist afterwards. *)
Definition fdata (self : store) : option T * store :=
  match st_fdata self with
  | None =>
      match st_map self with
      | Some m =>
          if st_mmap self then (Some m, self)
          else
            let self := mkStore (st_map self) (Some m) (st_mmap self) in
            (st_fdata self, self)
      | None => (st_fdata self, self)
      end
  | Some _ => (st_fdata self, self)
  end.

Definition load (self : store) : option T * store :=
  let '(d, self) := fdata self in
  let self :=
    match d, st_map self with
    | None, Some m => mkStore (st_map self) (Some m) (st_mmap self)
    | _, _ => self
    end in
  fdata self.

Definition clear (self : store) : store :=
  let '(d, self) := fdata self in
  match d, st_map self with
  | Some _, Some _ => mkStore (st_map self) None (st_mmap self)
  | _, _ => self
  end.

(** The [mmap] setter, [value] being [bool(value)]. *)
Definition mmap_set (self : store) (value : bool) : store :=
  let self := mkStore (st_map self) (st_fdata self) value in
  if st_mmap self && bool_decide (st_fdata self <> None)
  then mkStore (st_map self) None (st_mmap self)
  else self.

End ArtistData.

(** *** [ImageViewer.index], [fov_size], [on_scroll] and [grid] *)

Section Cursor.

Local Open Scope Q_scope.

(** [py.make_list(x, 3)] *)
Variable make_list : corner -> list coord.

(** [a - b], [(a + b) / 2] on coordinates that may be [None]. *)
Definition coord_sub (a b : coord) : result Q :=
  match a, b with
  | Some x, Some y => Ok (x - y)
  | _, _ => Raise TypeError
  end.
Definition coord_mid (a b : coord) : result Q :=
  match a, b with
  | Some x, Some y => Ok ((x + y) / 2)
  | _, _ => Raise TypeError
  end.

(** The [index] setter: [zip(value, *self.fov)]. *)
Definition index_set (fov : list coord * list coord) (value : corner) : result (list Q) :=
  let value := make_list value in
  mapR (fun '(v, (mn, mx)) =>
          match v with
          | None => coord_mid mx mn
          | Some q => Ok q
          end)
       (zip value (zip (fst fov) (snd fov))).

(** The [fov_size] property. *)
Definition fov_size (fov : list coord * list coord) : result (list Q) :=
  mapR (fun '(mx, mn) => coord_sub mx mn) (zip (snd fov) (fst fov)).

(** The [fov_size] setter, up to the assignment [self.fov = [min, max]]:
    the two corners it assigns. *)
Definition fov_size_corners (index : list Q) (value : corner) : corner * corner :=
  let value := make_list value in
  let min := zip_with (fun i v => if truthy v then Some (i - default 0 v / 2) else None)
                      index value in
  let max := zip_with (fun i v => if truthy v then Some (i + default 0 v / 2) else None)
                      index value in
  (CSeq min, CSeq max).

Definition fov_size_set (_max_fov : list Q * list Q) (index : list Q) (value : corner)
  : list coord * list coord :=
  fov_set make_list _max_fov (Some (fov_size_corners index value)).

(** [on_scroll], from [step_size] on: the corners of the new field of
    view.  [index] is [self.index] when the corners are computed. *)
Definition scroll_corners (index min max : list Q) (step_size : Q) : list Q * list Q :=
  let new_min := zip_with (fun i mn0 => i - step_size * (i - mn0)) index min in
  let new_max := zip_with (fun mn '(mn0, mx0) => mn + step_size * (mx0 - mn0))
                          new_min (zip min max) in
  (new_min, new_max).

(** [self.scroll_step ** (-steps)] for a whole number of steps *)
Definition step_size (scroll_step : Q) (steps : Z) : Q := Qpower scroll_step (- steps).

End Cursor.

(** A grid of at most [nb_image] rows whose last column is in use. *)
Definition snug (nb_image : Z) (size : option Z * option Z) : Prop :=
  exists r c, size = (Some r, Some c)
              /\ (1 <= r <= nb_image)%Z /\ (1 <= c)%Z /\ (r * (c - 1) < nb_image)%Z.

(** The [grid] setter; [nb_images] is [len(self.images)] and a value
    that is not [None] is a list or a tuple. *)
Definition grid_set (nb_images : Z) (value : option (list (option Z)))
  : result (option Z * option Z) :=
  match value with
  | None => Ok (None, None)
  | Some [gx; gy] =>
      match gx, gy with
      | Some x, Some y =>
          if negb (x * y =? nb_images)%Z then Raise ValueError else Ok (gx, gy)
      | _, _ => Ok (gx, gy)
      end
  | Some _ => Raise ValueError
  end.

End Gui.

(** * Properties *)

(** ** [prepare] *)

Section PrepareFacts.

Import Classic.

Variable to_integer : dtype -> IEEE.float -> IEEE.float.
Variable io_map : string -> result mapped_array.
Variable affine_default : list nat -> tensor.

Local Abbreviation tensor_to := (Classic.tensor_to to_integer).

Lemma to_backend_raw (dev : device) (dt : dtype) (x a : tensor) :
  to_backend to_integer dev dt (PList [PTensor x; PTensor a])
  = Ok (PList [PTensor (tensor_to x (Some dev) (Some dt));
               PTensor (tensor_to a (Some dev) (Some dt))]).
Proof. reflexivity. Qed.

Lemma mapR_prepare_one_raw (ts : list tensor) :
  mapR (prepare_one io_map affine_default) (map PTensor ts)
  = Ok (map (fun t => PList [PTensor t; PTensor (affine_default (t_shape t))]) ts).
Proof.
  induction ts as [|t ts IH]; simpl; [reflexivity|].
  rewrite IH. reflexivity.
Qed.

Lemma mapR_to_backend_raw (dev : device) (dt : dtype) (ps : list (tensor * tensor)) :
  mapR (to_backend to_integer dev dt) (map (fun p => PList [PTensor (fst p); PTensor (snd p)]) ps)
  = Ok (map (fun p => PList [PTensor (tensor_to (fst p) (Some dev) (Some dt));
                             PTensor (tensor_to (snd p) (Some dev) (Some dt))]) ps).
Proof.
  induction ps as [|p ps IH]; [reflexivity|].
  cbn [map mapR]. rewrite to_backend_raw. cbn [rbind]. rewrite IH. reflexivity.
Qed.

(** On a batch of raw arrays [prepare] does succeed, and every entry ends
    on the backend of the first array cast to [float32] on the requested
    device. *)
Lemma prepare_raw_arrays (t : tensor) (ts : list tensor) (dev : option device) :
  exists out,
    prepare to_integer io_map affine_default (map PTensor (t :: ts)) dev = Ok out
    /\ length out = length (t :: ts)
    /\ Forall (on_backend (default (t_device t) dev) Float32) out.
Proof.
  unfold prepare. rewrite mapR_prepare_one_raw. cbn [rbind map].
  cbn [lookup list_lookup]. cbn [rbind getitem lookup list_lookup py_to as_tensor setitem].
  cbn [length]. destruct (decide (0 < 2)%nat) as [_|Hn]; [|lia].
  cbn [rbind insert list_insert Classic.tensor_to t_device t_dtype default].
  set (dv := default (t_device t) dev).
  pose (ps := (tensor_to t dev (Some Float32), affine_default (t_shape t))
                :: map (fun u => (u, affine_default (t_shape u))) ts).
  replace (PList [PTensor (tensor_to t dev (Some Float32));
                  PTensor (affine_default (t_shape t))]
           :: map (fun u => PList [PTensor u; PTensor (affine_default (t_shape u))]) ts)
    with (map (fun p => PList [PTensor (fst p); PTensor (snd p)]) ps)
    by (unfold ps; cbn [map fst snd]; f_equal; rewrite map_map; reflexivity).
  rewrite mapR_to_backend_raw. eexists. split; [reflexivity|]. split.
  - rewrite length_map. unfold ps. cbn [length]. rewrite length_map. reflexivity.
  - apply Forall_map. apply Forall_forall. intros p _.
    exists (tensor_to (fst p) (Some dv) (Some Float32)),
           (tensor_to (snd p) (Some dv) (Some Float32)).
    repeat split.
Qed.

(** A file path as first input: the pair built from the mapped file is a
    tuple, and the cast of its first entry cannot be stored. *)
Lemma prepare_path_raises (path : string) (m : mapped_array) (dev : option device) :
  io_map path = Ok m ->
  prepare to_integer io_map affine_default [PStr path] dev = Raise TypeError.
Proof.
  intros Hm. unfold prepare. cbn [mapR prepare_one]. rewrite Hm. reflexivity.
Qed.

(** C1. [prepare] called as [affine] and [diffeo] call it, on a source
    and a target each given as a (data, orientation) pair: every pair is
    resolved to a tuple, the statement [prepared[0][0] = ...] assigns to
    an item of that tuple, and the call ends in [TypeError] instead of
    returning the prepared list. *)
Theorem prepare_pairs_raise_TypeError
        (src src_aff trg trg_aff : tensor) (dev : option device) :
  prepare to_integer io_map affine_default
          [PTuple [PTensor src; PTensor src_aff];
           PTuple [PTensor trg; PTensor trg_aff]] dev
  = Raise TypeError.
Proof. reflexivity. Qed.

End PrepareFacts.

(** ** [ImageArtist.affine] *)

Section ArtistFacts.

Import Gui.

Variable affine_default : attr -> result (list (list Q)).

Lemma affine_set_value (self : artist) (m : list (list Q)) :
  exists self',
    affine_set affine_default self (AMatrix m) = Ok self'
    /\ affine self' = AMatrix m.
Proof.
  unfold affine_set. cbn [rbind].
  eexists. split; [reflexivity|].
  unfold affine, getattr. rewrite lookup_insert_eq. reflexivity.
Qed.

(** C10. After [artist.affine = None] the stored orientation is [None]:
    the default orientation computed from the shape is written first and
    then overwritten by the assigned value, so the getter returns [None]
    and not the default. *)
Theorem affine_set_None_stores_None (self : artist) (dflt : list (list Q)) :
  affine_default (shape self) = Ok dflt ->
  exists self',
    affine_set affine_default self ANone = Ok self'
    /\ self' !! "_affine" = Some ANone
    /\ affine self' = ANone
    /\ affine self' <> AMatrix dflt.
Proof.
  intros Hd. unfold affine_set. rewrite Hd. cbn [rbind].
  eexists. split; [reflexivity|].
  assert (Hl : (<["_affine" := ANone]> (<["_affine" := AMatrix dflt]> self) : artist)
                 !! "_affine" = Some ANone) by apply lookup_insert_eq.
  unfold affine, getattr. rewrite Hl. cbn. repeat split; discriminate.
Qed.

End ArtistFacts.

Lemma affine_set_None_witness :
  let affine_default := fun _ : Gui.attr => Ok [[1%Q; 0%Q]; [0%Q; 1%Q]] in
  let self : Gui.artist := <["_shape" := Gui.AShape [2%nat; 2%nat; 2%nat]]> ∅ in
  affine_default (Gui.shape self) = Ok [[1%Q; 0%Q]; [0%Q; 1%Q]]
  /\ exists self',
      Gui.affine_set affine_default self Gui.ANone = Ok self'
      /\ self' !! "_affine" = Some Gui.ANone
      /\ Gui.affine self' = Gui.ANone
      /\ Gui.affine self' <> Gui.AMatrix [[1%Q; 0%Q]; [0%Q; 1%Q]].
Proof.
  intros affine_default self. split; [reflexivity|].
  apply (affine_set_None_stores_None affine_default self). reflexivity.
Defined.

(** ** [ImageViewer.fov] *)

Section FovFacts.

Import Gui.

Variable make_list : corner -> list coord.
Hypothesis make_list_None : make_list CNone = [None; None; None].

(** [fov = None] and [fov = (None, None)] give the bounding box. *)
Lemma fov_set_None (a b c d e f : Q) :
  fov_set make_list ([a; b; c], [d; e; f]) None
  = ([Some a; Some b; Some c], [Some d; Some e; Some f])
  /\ fov_set make_list ([a; b; c], [d; e; f]) (Some (CNone, CNone))
     = ([Some a; Some b; Some c], [Some d; Some e; Some f]).
Proof.
  unfold fov_set. simpl. rewrite make_list_None. split; reflexivity.
Qed.

Lemma py_or_fill (c : coord) (c0 : Q) :
  (forall q, c = Some q -> ~ (q == 0)%Q) -> py_or c (Some c0) = fill c c0.
Proof.
  intros H. destruct c as [q|]; [|reflexivity].
  unfold py_or, truthy, fill.
  destruct (Qeq_bool q 0) eqn:E; [|reflexivity].
  apply Qeq_bool_eq in E. exfalso. exact (H q eq_refl E).
Qed.

(** As long as no supplied coordinate is zero, the setter fills the
    absent coordinates and keeps the others. *)
Lemma fov_set_fill (mn mx : corner) (min0 max0 : list Q) :
  length (make_list mn) = length min0 ->
  length (make_list mx) = length max0 ->
  Forall (fun c => forall q, c = Some q -> ~ (q == 0)%Q) (make_list mn ++ make_list mx) ->
  fov_set make_list (min0, max0) (Some (mn, mx))
  = (zip_with fill (make_list mn) min0, zip_with fill (make_list mx) max0).
Proof.
  intros Hmn Hmx Hnz. apply Forall_app in Hnz as [Hn Hx].
  assert (Hzip : forall (l : list coord) (l0 : list Q),
             Forall (fun c => forall q, c = Some q -> ~ (q == 0)%Q) l ->
             zip_with (fun m m0 => py_or m (Some m0)) l l0 = zip_with fill l l0).
  { intros l l0 Hl. revert l0. induction Hl as [|c l Hc _ IH]; intros [|c0 l0];
      cbn [zip_with]; try reflexivity.
    rewrite (py_or_fill c c0 Hc), IH. reflexivity. }
  assert (Hnone : forall (l : list coord) (l0 : list Q),
             length l = length l0 -> existsb is_None l = false ->
             zip_with fill l l0 = l).
  { induction l as [|c l IH]; intros [|c0 l0] Hlen He; cbn in *; try congruence.
    destruct c as [q|]; cbn in *; [|discriminate].
    rewrite IH; [reflexivity|lia|exact He]. }
  unfold fov_set. simpl.
  destruct (existsb is_None (make_list mn) || existsb is_None (make_list mx)) eqn:E.
  - rewrite (Hzip _ _ Hn), (Hzip _ _ Hx). reflexivity.
  - apply orb_false_elim in E as [E1 E2].
    rewrite (Hnone _ _ Hmn E1), (Hnone _ _ Hmx E2). reflexivity.
Qed.

End FovFacts.

(** C8. A field of view assigned with the supplied coordinate 0 for the
    first axis of the minimum corner and every other coordinate absent:
    the supplied 0 is not kept, it is replaced by the bounding box value
    ([mn or mn0] takes 0 for absent), whereas the specification's filling
    keeps it. *)
Theorem fov_set_replaces_supplied_zero :
  let bbox := ([-5; -7; -9], [5; 7; 9])%Q in
  let value := Some (Gui.CSeq [Some 0%Q; None; None], Gui.CNone) in
  Gui.fov_set Gui.make_list3 bbox value
  = ([Some (-5)%Q; Some (-7)%Q; Some (-9)%Q], [Some 5%Q; Some 7%Q; Some 9%Q])
  /\ zip_with Gui.fill [Some 0%Q; None; None] (fst bbox)
     = [Some 0%Q; Some (-7)%Q; Some (-9)%Q]
  /\ fst (Gui.fov_set Gui.make_list3 bbox value) !! 0%nat <> Some (Some 0%Q).
Proof. cbv zeta. repeat split. vm_compute. discriminate. Qed.

(** ** [ImageViewer.aspect] *)

Section AspectFacts.

Import Gui.
Local Open Scope R_scope.

(** The [size] setter never returns: two values are handed to a getter
    that takes none, and any other number of values is refused. *)
Lemma size_set_raises (fig : figure) (value : list R) :
  exists e, size_set fig value = Raise e.
Proof.
  unfold size_set. destruct (length value =? 2)%nat eqn:E; cbn [negb].
  - apply Nat.eqb_eq in E. destruct value as [|a [|b [|c value]]]; try discriminate.
    eexists; reflexivity.
  - eexists; reflexivity.
Qed.

Lemma aspect_set_raises (fig : figure) (value : R) :
  exists e, aspect_set fig value = Raise e.
Proof.
  unfold aspect_set. destruct (aspect_target fig value) as [[s0 s1]|e]; cbn [rbind].
  - apply size_set_raises.
  - eexists; reflexivity.
Qed.

Lemma sqrt_4 : sqrt 4 = 2.
Proof. replace 4 with (2 * 2) by lra. apply sqrt_square. lra. Qed.

Lemma sqrt_16 : sqrt 16 = 4.
Proof. replace 16 with (4 * 4) by lra. apply sqrt_square. lra. Qed.

Lemma py_sqrt_nonneg (x : R) : 0 <= x -> py_sqrt x = Ok (sqrt x).
Proof. intros H. unfold py_sqrt. destruct (Rlt_dec x 0); [lra|reflexivity]. Qed.

Lemma py_div_nonzero (x y : R) : y <> 0 -> py_div x y = Ok (x / y).
Proof. intros H. unfold py_div. destruct (Req_dec_T y 0); [contradiction|reflexivity]. Qed.

Lemma aspect_target_4_4 : aspect_target (mkFigure (4, 4)) 1 = Ok (2, 2).
Proof.
  unfold aspect_target, size, get_size_inches. cbn [rbind size_inches].
  rewrite py_sqrt_nonneg by lra. cbn [rbind].
  replace (4 * 4) with 16 by lra. rewrite sqrt_16.
  rewrite py_sqrt_nonneg by lra. cbn [rbind].
  rewrite py_div_nonzero by lra. cbn [rbind].
  rewrite py_sqrt_nonneg by lra. cbn [rbind].
  replace (4 * 1) with 4 by lra. replace (4 / 1) with 4 by lra.
  rewrite sqrt_4. reflexivity.
Qed.

(** C9. A viewer of size (4, 4) whose aspect is set to 1.  The setter
    computes the size (2, 2), whose geometric mean [sqrt (2 * 2)] is not
    the [sqrt (4 * 4)] it started from, and then hands it to the [size]
    setter, which calls the getter [get_size_inches] with it: the
    assignment ends in [TypeError] and the figure keeps its size. *)
Theorem aspect_set_4_4 :
  let fig := mkFigure (4, 4) in
  aspect_target fig 1 = Ok (2, 2)
  /\ sqrt (2 * 2) <> sqrt (4 * 4)
  /\ aspect_set fig 1 = Raise TypeError
  /\ size fig = Ok (4, 4).
Proof.
  cbv zeta. split; [apply aspect_target_4_4|]. split.
  - replace (2 * 2) with 4 by lra. replace (4 * 4) with 16 by lra.
    rewrite sqrt_4, sqrt_16. lra.
  - split; [|reflexivity].
    unfold aspect_set. rewrite aspect_target_4_4. reflexivity.
Qed.

End AspectFacts.

(** ** The optimisation loop of [affine] and [diffeo] *)

Section LoopFacts.

Import Classic.

Context {St L : Type}.
Variable forward : St -> L.
Variable backward : L -> St -> St.
Variable optim_step : St -> St.
Variable lsub : L -> L -> L.
Variable abs_lt : L -> bool.
Variable inf : L.
Variable vars0 : St.

Local Abbreviation vars_at' := (vars_at forward backward optim_step vars0).
Local Abbreviation loss_at' := (loss_at forward backward optim_step vars0).
Local Abbreviation prev_loss' := (prev_loss forward backward optim_step inf vars0).
Local Abbreviation crit_at' := (crit_at forward backward optim_step lsub inf vars0).
Local Abbreviation iter_events' := (iter_events forward backward optim_step lsub inf vars0).

Lemma trace_snoc (n : nat) :
  concat (map iter_events' (seq 0 n)) ++ iter_events' n
  = concat (map iter_events' (seq 0 (Datatypes.S n))).
Proof.
  rewrite seq_S, map_app, concat_app. cbn [map concat Nat.add].
  rewrite app_nil_r. reflexivity.
Qed.

(** The invariant of the loop, entered at iteration [n] with [todo]
    iterations left. *)
Lemma optim_loop_inv (todo : nat) :
  forall (n : nat) (st : loop_state St L),
    ls_iters st = n ->
    ls_vars st = vars_at' n ->
    ls_loss st = prev_loss' n ->
    ls_trace st = concat (map iter_events' (seq 0 n)) ->
    (forall i, (i < n)%nat -> abs_lt (crit_at' i) = false) ->
    let r := optim_loop forward backward optim_step lsub abs_lt todo n st in
    (n <= ls_iters r <= n + todo)%nat
    /\ ls_trace r = concat (map iter_events' (seq 0 (ls_iters r)))
    /\ ls_vars r = vars_at' (ls_iters r)
    /\ (forall i, (i < ls_iters r)%nat ->
                  abs_lt (crit_at' i) = true -> ls_iters r = Datatypes.S i)
    /\ ((ls_iters r < n + todo)%nat ->
        exists i, ls_iters r = Datatypes.S i /\ abs_lt (crit_at' i) = true).
Proof.
  induction todo as [|todo IH]; intros n st Hn Hv Hl Ht Hbig.
  - cbn [optim_loop]. cbv zeta. rewrite Hn.
    split; [lia|]. split; [assumption|]. split; [assumption|]. split.
    + intros i Hi Hs. rewrite Hbig in Hs by assumption. discriminate.
    + intros Hlt. lia.
  - cbn [optim_loop]. cbv zeta.
    assert (Hloss : forward (ls_vars st) = loss_at' n)
      by (unfold loss_at; rewrite Hv; reflexivity).
    assert (Hcrit : lsub (ls_loss st) (forward (ls_vars st)) = crit_at' n)
      by (unfold crit_at; rewrite Hl, Hloss; reflexivity).
    rewrite Hcrit.
    set (st' := mkLoop _ _ _ _).
    assert (Hn' : ls_iters st' = Datatypes.S n) by (cbn; congruence).
    assert (Hv' : ls_vars st' = vars_at' (Datatypes.S n))
      by (cbn; rewrite Hv; reflexivity).
    assert (Hl' : ls_loss st' = prev_loss' (Datatypes.S n)) by exact Hloss.
    assert (Ht' : ls_trace st' = concat (map iter_events' (seq 0 (Datatypes.S n)))).
    { cbn [st' ls_trace]. rewrite Ht, <- trace_snoc. unfold iter_events.
      rewrite Hloss. reflexivity. }
    destruct (abs_lt (crit_at' n)) eqn:Hsmall.
    + split; [rewrite Hn'; lia|]. split; [rewrite Hn'; exact Ht'|].
      split; [rewrite Hn'; exact Hv'|]. rewrite Hn'. split.
      * intros i Hi Hs. destruct (decide (i = n)) as [->|Hne]; [reflexivity|].
        rewrite Hbig in Hs by lia. discriminate.
      * intros _. exists n. split; [reflexivity|assumption].
    + assert (Hbig' : forall i, (i < Datatypes.S n)%nat -> abs_lt (crit_at' i) = false).
      { intros i Hi. destruct (decide (i = n)) as [->|Hne]; [assumption|].
        apply Hbig. lia. }
      destruct (IH (Datatypes.S n) st' Hn' Hv' Hl' Ht' Hbig')
        as (Hle & Htr & Hva & Hstop & Hearly).
      split; [lia|]. split; [assumption|]. split; [assumption|].
      split; [assumption|].
      intros Hlt. apply Hearly. lia.
Qed.

Lemma run_loop_spec (max_iter : nat) :
  loop_spec forward backward optim_step lsub abs_lt inf vars0 max_iter
            (run_loop forward backward optim_step lsub abs_lt inf vars0 max_iter).
Proof.
  unfold run_loop, loop_spec.
  destruct (optim_loop_inv max_iter 0 (mkLoop vars0 inf 0 []))
    as (Hle & Htr & Hva & Hstop & Hearly); try reflexivity.
  - intros i Hi. lia.
  - split; [lia|]. split; [assumption|]. split; [assumption|].
    split; [assumption|].
    intros Hlt. apply Hearly. lia.
Qed.

End LoopFacts.

Section RegistrationLoops.

Import Classic.

Context {Q_ V Img Opt L : Type}.
Variable lsub : L -> L -> L.
Variable abs_lt : L -> bool.                 (* crit.abs() < tolerance *)
Variable inf : L.
(* affine *)
Variable pull : Q_ -> Img.
Variable loss : Img -> Img -> L.
Variable backward : L -> Q_ * Opt -> Q_ * Opt.
Variable optim_step : Q_ * Opt -> Q_ * Opt.
(* diffeo *)
Variable pull_v : Q_ -> V -> Img.
Variable image_loss : Img -> Img -> L.
Variable vel_loss : V -> L.
Variable ladd : L -> L -> L.
Variable ltenth : L -> L.
Variable backward_v : L -> Q_ * V * Opt -> Q_ * V * Opt.
Variable optim_step_v : Q_ * V * Opt -> Q_ * V * Opt.
Variable target : Img.

(** C2. In [affine] and in [diffeo] the loop runs at most [max_iter]
    iterations.  Iteration [i] pulls, computes the loss, backpropagates
    and steps the optimiser once, in that order, with
    [crit = previous loss - current loss] (the previous loss of the
    first iteration being [inf]); it prints the index, the loss and
    [crit] exactly when [i] is a multiple of 10.  The loop stops at the
    first iteration whose [abs(crit)] is below the tolerance, and stops
    before [max_iter] iterations only for that reason. *)
Theorem registration_loops_follow_spec
        (max_iter : nat) (s0 : Q_ * Opt) (s0_v : Q_ * V * Opt) :
  loop_spec (affine_forward pull loss target) backward optim_step
            lsub abs_lt inf s0 max_iter
            (affine_loop lsub abs_lt inf pull loss backward optim_step target
                         max_iter s0)
  /\ loop_spec (diffeo_forward pull_v image_loss vel_loss ladd ltenth target)
               backward_v optim_step_v lsub abs_lt inf s0_v max_iter
               (diffeo_loop lsub abs_lt inf pull_v image_loss vel_loss ladd ltenth
                            backward_v optim_step_v target max_iter s0_v).
Proof. split; apply run_loop_spec. Qed.

End RegistrationLoops.

(** ** The matrix returned by [affine] and [diffeo] *)

Section MatrixFacts.

Import Classic.

Context {K : Type}.
Variables (kzero : K) (kadd ksub kmul : K -> K -> K).

Local Abbreviation trans_col' := (trans_col kzero).
Local Abbreviation set_row := (fun (row : list K) (x : K) => removelast row ++ [x]).

Lemma length_removelast (A : Type) (l : list A) :
  length (removelast l) = (length l - 1)%nat.
Proof. rewrite removelast_firstn_len, length_take. lia. Qed.

Lemma length_trans_col (M : matrix) : length (trans_col' M) = (length M - 1)%nat.
Proof. unfold trans_col. rewrite length_map. apply length_removelast. Qed.

Lemma length_matvec (M : matrix) (v : list K) :
  length (matvec kzero kadd kmul M v) = length M.
Proof. unfold matvec. apply length_map. Qed.

Lemma length_lin_block (M : @matrix K) : length (lin_block M) = (length M - 1)%nat.
Proof. unfold lin_block. rewrite length_map. apply length_removelast. Qed.

Lemma removelast_set_trans_col (M : matrix) (v : list K) :
  removelast (set_trans_col M v) = zip_with set_row (removelast M) v.
Proof. unfold set_trans_col. apply removelast_last. Qed.

Lemma length_set_trans_col (M : matrix) (v : list K) :
  length v = (length M - 1)%nat ->
  length (set_trans_col M v) = S (length v).
Proof.
  intros Hv. unfold set_trans_col.
  rewrite length_app, length_zip_with, length_removelast. cbn [length]. lia.
Qed.

(** Reading the column that was just written. *)
Lemma trans_col_set (M : matrix) (v : list K) :
  length v = (length M - 1)%nat ->
  trans_col' (set_trans_col M v) = v.
Proof.
  intros Hv. unfold trans_col. rewrite removelast_set_trans_col.
  rewrite <- length_removelast in Hv.
  revert v Hv. induction (removelast M) as [|row rows IH]; intros [|x v] Hv;
    cbn in Hv; try discriminate; [reflexivity|].
  cbn [zip_with map]. rewrite last_last, IH by lia. reflexivity.
Qed.

(** Writing the translation column leaves the linear block alone. *)
Lemma lin_block_set (M : matrix) (v : list K) :
  length v = (length M - 1)%nat ->
  lin_block (set_trans_col M v) = lin_block M.
Proof.
  intros Hv. unfold lin_block. rewrite removelast_set_trans_col.
  rewrite <- length_removelast in Hv.
  revert v Hv. induction (removelast M) as [|row rows IH]; intros [|x v] Hv;
    cbn in Hv; try discriminate; [reflexivity|].
  cbn [zip_with map]. rewrite removelast_last, IH by lia. reflexivity.
Qed.

(** A second write replaces the first. *)
Lemma set_trans_col_twice (M : matrix) (v w : list K) :
  length v = (length M - 1)%nat ->
  set_trans_col (set_trans_col M v) w = set_trans_col M w.
Proof.
  intros Hv. unfold set_trans_col at 1. rewrite removelast_set_trans_col.
  unfold set_trans_col at 1. rewrite last_last. unfold set_trans_col. f_equal.
  rewrite <- length_removelast in Hv.
  revert v w Hv. induction (removelast M) as [|row rows IH]; intros [|x v] w Hv;
    cbn in Hv; try discriminate; [reflexivity|].
  destruct w as [|y w]; [reflexivity|].
  cbn [zip_with]. rewrite removelast_last, IH by lia. reflexivity.
Qed.

(** The in-place correction computes the matrix the specification
    describes. *)
Lemma undo_shift_correct (D : nat) (M0 : matrix) (shift : list K) :
  square (S D) M0 ->
  length shift = D ->
  undo_shift kzero kadd ksub kmul M0 shift
  = undo_shift_spec kzero kadd ksub kmul M0 shift.
Proof.
  intros [Hrows _] Hs. unfold undo_shift, undo_shift_spec.
  assert (Hlen : length (vsub ksub (trans_col' M0) shift) = (length M0 - 1)%nat).
  { unfold vsub. rewrite length_zip_with, length_trans_col. lia. }
  rewrite (trans_col_set _ _ Hlen), (lin_block_set _ _ Hlen).
  apply set_trans_col_twice. exact Hlen.
Qed.

Lemma last_lookup_length (A : Type) (l : list A) (d : A) (n : nat) (x : A) :
  length l = S n -> l !! n = Some x -> List.last l d = x.
Proof.
  intros Hlen Hx.
  assert (Hne : l <> []) by (intros ->; discriminate).
  rewrite (app_removelast_last d Hne) in Hx.
  rewrite lookup_app_r in Hx by (rewrite length_removelast; lia).
  rewrite length_removelast, Hlen in Hx.
  replace (n - (S n - 1))%nat with 0%nat in Hx by lia.
  cbn in Hx. congruence.
Qed.

Lemma removelast_take (A : Type) (l : list A) (n : nat) :
  length l = S n -> removelast l = take n l.
Proof. intros H. rewrite removelast_firstn_len, H. reflexivity. Qed.

(** The matrix the slices describe is the matrix the entries describe. *)
Lemma undo_shift_spec_recentred (D : nat) (M0 : matrix) (shift : list K) :
  square (S D) M0 ->
  length shift = D ->
  undo_shift_spec kzero kadd ksub kmul M0 shift
  = recentred kzero kadd ksub kmul M0 shift.
Proof.
  intros [Hrows Hcols] Hs.
  unfold undo_shift_spec, recentred, set_trans_col. rewrite Hs.
  unfold matrix in *.
  apply list_eq. intros i.
  rewrite list_lookup_imap.
  rewrite (removelast_take _ M0 D Hrows).
  destruct (decide (i < D)%nat) as [Hi|Hi].
  - assert (Hrow : exists row, M0 !! i = Some row).
    { apply lookup_lt_is_Some. lia. }
    destruct Hrow as [row Hrow].
    assert (Hsi : exists s, shift !! i = Some s).
    { apply lookup_lt_is_Some. lia. }
    destruct Hsi as [s Hsi].
    assert (Hlen : length row = S D).
    { exact (Forall_lookup_1 _ _ _ _ Hcols Hrow). }
    rewrite lookup_app_l.
    2:{ rewrite length_zip_with, length_take.
        unfold vadd, vsub, matvec, trans_col, lin_block.
        rewrite !length_zip_with, !length_map, (removelast_take _ M0 D Hrows), length_take. lia. }
    rewrite lookup_zip_with, lookup_take_lt, Hrow by lia. cbn [mbind option_bind fmap option_fmap option_map].
    unfold vadd, vsub, matvec, trans_col, lin_block.
    rewrite (removelast_take _ M0 D Hrows).
    rewrite !lookup_zip_with, !list_lookup_fmap, lookup_take_lt, Hrow, Hsi by lia.
    cbn [mbind option_bind fmap option_fmap option_map].
    f_equal. rewrite (removelast_take _ row D Hlen). f_equal. f_equal.
    unfold dot. f_equal. f_equal.
    + assert (Hd : exists x, row !! D = Some x) by (apply lookup_lt_is_Some; lia).
      destruct Hd as [x Hd].
      rewrite (last_lookup_length _ row kzero D x Hlen Hd).
      symmetry. apply nth_lookup_Some. exact Hd.
    + symmetry. apply nth_lookup_Some. exact Hsi.
  - rewrite lookup_app_r.
    2:{ rewrite length_zip_with, length_take.
        unfold vadd, vsub, matvec, trans_col, lin_block.
        rewrite !length_zip_with, !length_map, (removelast_take _ M0 D Hrows), length_take. lia. }
    assert (Hz : length (zip_with (fun row x => removelast row ++ [x]) (take D M0)
                 (vadd kadd (vsub ksub (trans_col kzero M0) shift)
                       (matvec kzero kadd kmul (lin_block M0) shift))) = D).
    { rewrite length_zip_with, length_take.
      unfold vadd, vsub, matvec, trans_col, lin_block.
      rewrite !length_zip_with, !length_map, (removelast_take _ M0 D Hrows), length_take. lia. }
    rewrite Hz.
    destruct (decide (i = D)) as [->|Hne].
    + replace (D - D)%nat with 0%nat by lia.
      assert (Hrow : exists row, M0 !! D = Some row) by (apply lookup_lt_is_Some; lia).
      destruct Hrow as [row Hrow]. rewrite Hrow. cbn.
      f_equal. apply (last_lookup_length _ M0 [] D row Hrows Hrow).
    + rewrite (lookup_ge_None_2 M0 i) by lia.
      destruct (i - D)%nat eqn:E; [lia|]. reflexivity.
Qed.
(** The in-place correction computes the matrix of the specification. *)
Lemma undo_shift_recentred (D : nat) (M0 : matrix) (shift : list K) :
  square (S D) M0 ->
  length shift = D ->
  undo_shift kzero kadd ksub kmul M0 shift
  = recentred kzero kadd ksub kmul M0 shift.
Proof.
  intros Hsq Hs. rewrite (undo_shift_correct D M0 shift Hsq Hs).
  apply (undo_shift_spec_recentred D); assumption.
Qed.

End MatrixFacts.

Section RegistrationResult.

Import Classic.

Context {K Q_ V Img Opt L : Type}.
Variables (kzero : K) (kadd ksub kmul : K -> K -> K).
Variable expm : Q_ -> @matrix K.
Variable inverse : @matrix K -> @matrix K.
Variable lsub : L -> L -> L.
Variable abs_lt : L -> bool.
Variable inf : L.
(* affine *)
Variable pull : Q_ -> Img.
Variable loss : Img -> Img -> L.
Variable backward : L -> Q_ * Opt -> Q_ * Opt.
Variable optim_step : Q_ * Opt -> Q_ * Opt.
(* diffeo *)
Variable pull_v : Q_ -> V -> Img.
Variable image_loss : Img -> Img -> L.
Variable vel_loss : V -> L.
Variable ladd : L -> L -> L.
Variable ltenth : L -> L.
Variable backward_v : L -> Q_ * V * Opt -> Q_ * V * Opt.
Variable optim_step_v : Q_ * V * Opt -> Q_ * V * Opt.
Variable target : Img.

(** C3. With [origin='center'], once the loop has ended with the
    parameters [q] (and the velocity [v]), the moved image is pulled once
    more without gradient, and the matrix returned is the inverse of
    [M]: the exponential of [q] whose translation column is decreased by
    the shift and increased by the linear block applied to the shift,
    the linear block and the last row being those of the exponential
    ([recentred] gives [M] entry by entry).  [affine] returns
    [(matrix, moved)]; [diffeo] returns [(matrix, v, moved)] with [v] as
    the loop left it. *)
Theorem registration_returns_inverse_of_recentred
        (D max_iter : nat) (shift : list K)
        (s0 : Q_ * Opt) (s0_v : Q_ * V * Opt) :
  (forall q, square (S D) (expm q)) ->
  length shift = D ->
  let st := affine_loop lsub abs_lt inf pull loss backward optim_step target
                        max_iter s0 in
  let q := fst (ls_vars st) in
  let st_v := diffeo_loop lsub abs_lt inf pull_v image_loss vel_loss ladd ltenth
                          backward_v optim_step_v target max_iter s0_v in
  let q_v := fst (fst (ls_vars st_v)) in
  let v := snd (fst (ls_vars st_v)) in
  affine kzero kadd ksub kmul expm inverse lsub abs_lt inf
         pull loss backward optim_step target max_iter Center shift s0
  = ((inverse (recentred kzero kadd ksub kmul (expm q) shift), pull q),
     ls_trace st ++ [ENewline; ENoGradPull])
  /\ diffeo kzero kadd ksub kmul expm inverse lsub abs_lt inf
            pull_v image_loss vel_loss ladd ltenth backward_v optim_step_v target
            max_iter Center shift s0_v
     = ((inverse (recentred kzero kadd ksub kmul (expm q_v) shift),
         v, pull_v q_v v),
        ls_trace st_v ++ [ENewline; ENoGradPull]).
Proof.
  intros Hsq Hs st q st_v q_v v. split.
  - unfold affine, final_matrix. fold st. fold q.
    rewrite (undo_shift_recentred kzero kadd ksub kmul D _ _ (Hsq q) Hs).
    reflexivity.
  - unfold diffeo, final_matrix. fold st_v.
    subst q_v v. destruct (ls_vars st_v) as [[qv vv] o]. cbn [fst snd].
    rewrite (undo_shift_recentred kzero kadd ksub kmul D _ _ (Hsq qv) Hs).
    reflexivity.
Qed.

End RegistrationResult.

(** A run in two dimensions over the rationals: the exponential doubles
    the first axis and translates by (3, 4), the shift is (10, 20), and
    [inverse] is the inverse of a homogeneous 3 x 3 matrix.  The matrix
    to invert is [[2 0 13] [0 1 4] [0 0 1]]. *)
Lemma registration_returns_inverse_witness :
  let expm := fun _ : unit => [[2; 0; 3]; [0; 1; 4]; [0; 0; 1]]%Q in
  let shift := [10; 20]%Q in
  let inverse := fun M : list (list Q) =>
    match M with
    | [[a; b; tx]; [c; d; ty]; [_; _; _]] =>
        let det := (a * d - b * c)%Q in
        [[Qred (d / det); Qred (- b / det); Qred ((b * ty - d * tx) / det)];
         [Qred (- c / det); Qred (a / det); Qred ((c * tx - a * ty) / det)];
         [0; 0; 1]]%Q
    | _ => M
    end in
  let nop2 := fun (_ : unit) (s : unit * unit) => s in
  let nop3 := fun (_ : unit) (s : unit * unit * unit) => s in
  (forall q, Classic.square 3 (expm q))
  /\ length shift = 2%nat
  /\ Classic.affine 0%Q Qplus Qminus Qmult expm inverse
       (fun _ _ => tt) (fun _ => true) tt
       (fun _ => tt) (fun _ _ => tt) nop2 (fun s => s) tt
       5 Classic.Center shift (tt, tt)
     = (([[1 # 2; 0; - (13 # 2)]; [0; 1; - (4)]; [0; 0; 1]]%Q, tt),
        [Classic.EPull; Classic.ELoss tt; Classic.EBackward; Classic.EStep;
         Classic.EPrint 0 tt tt; Classic.ENewline; Classic.ENoGradPull]).
Proof.
  intros expm shift inverse nop2 nop3.
  assert (Hsq : forall q, Classic.square 3 (expm q))
    by (intros q; split; [reflexivity|repeat constructor]).
  split; [exact Hsq|]. split; [reflexivity|].
  exact (proj1 (registration_returns_inverse_of_recentred
                  0%Q Qplus Qminus Qmult expm inverse
                  (fun _ _ => tt) (fun _ => true) tt
                  (fun _ => tt) (fun _ _ => tt) nop2 (fun s => s)
                  (fun _ _ => tt) (fun _ _ => tt) (fun _ => tt)
                  (fun _ _ => tt) (fun _ => tt) nop3 (fun s => s) tt
                  2 5 shift (tt, tt) (tt, tt, tt) Hsq eq_refl)).
Defined.

(** The correction on a matrix whose linear block is not the identity. *)
Example undo_shift_scaling :
  Classic.undo_shift 0%Z Z.add Z.sub Z.mul
    [[2; 0; 3]; [0; 1; 4]; [0; 0; 1]]%Z [10; 20]%Z
  = [[2; 0; 13]; [0; 1; 4]; [0; 0; 1]]%Z.
Proof. reflexivity. Qed.

(** A run of the loop: the loss goes 3, 2, 1, 0, 0 and the fifth
    iteration is the first whose improvement is below the tolerance. *)
Example run_loop_stops_when_flat :
  let forward := fun n : nat => Some (Z.max 0 (3 - Z.of_nat n)) in
  let lsub := fun a b : option Z =>
                match a, b with
                | Some x, Some y => Some (x - y)%Z
                | _, _ => None
                end in
  let abs_lt := fun c : option Z =>
                  match c with
                  | Some x => (Z.abs x <? 1)%Z
                  | None => false
                  end in
  let run := Classic.run_loop forward (fun _ s => s) S lsub abs_lt None 0%nat in
  Classic.ls_iters (run 1000%nat) = 5%nat
  /\ Classic.ls_iters (run 3%nat) = 3%nat
  /\ List.filter (fun e => match e with Classic.EPrint _ _ _ => true | _ => false end)
                 (Classic.ls_trace (run 1000%nat))
     = [Classic.EPrint 0 (Some 3%Z) None].
Proof. cbv zeta. repeat split; vm_compute; reflexivity. Qed.

(** ** Rounding to the nearest number of a format *)

Section RoundingFacts.

Import IEEE.
Local Open Scope Q_scope.

Lemma pow2_pos (e : Z) : 0 < 2 ^ e.
Proof. apply Qpower_0_lt. reflexivity. Qed.

Lemma pow2_add (a b : Z) : 2 ^ (a + b) == 2 ^ a * 2 ^ b.
Proof. apply Qpower_plus. discriminate. Qed.

Lemma pow2_Z (n : Z) : (0 <= n)%Z -> inject_Z (2 ^ n) == 2 ^ n.
Proof. intros Hn. rewrite Zpower_Qpower by exact Hn. reflexivity. Qed.

Lemma pow2_le (a b : Z) : (a <= b)%Z -> 2 ^ a <= 2 ^ b.
Proof. intros H. apply Qpower_le_compat_l; [exact H|]. discriminate. Qed.

Lemma pow2_lt_inv (a b : Z) : 2 ^ a < 2 ^ b -> (a < b)%Z.
Proof.
  intros H. destruct (Z_lt_le_dec a b) as [Hlt|Hle]; [exact Hlt|].
  apply pow2_le in Hle. exfalso. apply (Qlt_irrefl (2 ^ a)).
  eapply Qlt_le_trans; eassumption.
Qed.

Lemma pow2_le_inv (a b : Z) : 2 ^ a <= 2 ^ b -> (a <= b)%Z.
Proof.
  intros H. destruct (Z_le_gt_dec a b) as [Hle|Hgt]; [exact Hle|].
  assert (Hlt : 2 ^ b < 2 ^ a) by (apply Qpower_lt_compat_l; [lia|reflexivity]).
  exfalso. apply (Qlt_irrefl (2 ^ b)). eapply Qlt_le_trans; eassumption.
Qed.

(** [floor_log2 x] is not above the logarithm of [x]. *)
Lemma floor_log2_le (x : Q) : 0 < x -> 2 ^ floor_log2 x <= x.
Proof.
  intros Hx. unfold floor_log2.
  set (n := Qnum x). set (d := Zpos (Qden x)).
  set (e := (Z.log2 n - Z.log2 d)%Z).
  destruct (Qle_bool (2 ^ e) x) eqn:E; [apply Qle_bool_iff; exact E|].
  assert (Hn : (0 < n)%Z).
  { unfold n. destruct x as [xn xd]. unfold Qlt in Hx. cbn in *. lia. }
  assert (Hd : (0 < d)%Z) by (unfold d; lia).
  destruct (Z.log2_spec n Hn) as [Hn1 _].
  destruct (Z.log2_spec d Hd) as [_ Hd2].
  pose proof (Z.log2_nonneg n) as Hln. pose proof (Z.log2_nonneg d) as Hld.
  assert (Ex : x == inject_Z n / inject_Z d).
  { unfold n, d. destruct x as [xn xd]. cbn. rewrite <- Qmake_Qdiv. reflexivity. }
  rewrite Ex. apply Qle_shift_div_l.
  { change 0 with (inject_Z 0). rewrite <- Zlt_Qlt. exact Hd. }
  apply Qle_trans with (2 ^ (e - 1) * 2 ^ (Z.succ (Z.log2 d))).
  - apply Qmult_le_l; [apply pow2_pos|].
    rewrite <- pow2_Z by lia. rewrite <- Zle_Qle. lia.
  - rewrite <- pow2_add.
    replace (e - 1 + Z.succ (Z.log2 d))%Z with (Z.log2 n) by (unfold e; lia).
    rewrite <- pow2_Z by lia. rewrite <- Zle_Qle. exact Hn1.
Qed.

Lemma rne_cases (y : Q) :
  (rne y = Qfloor y /\ y - inject_Z (Qfloor y) <= 1 # 2)
  \/ (rne y = (Qfloor y + 1)%Z /\ 1 # 2 <= y - inject_Z (Qfloor y)).
Proof.
  unfold rne. destruct (Qcompare_spec (y - inject_Z (Qfloor y)) (1 # 2)) as [E|E|E].
  - destruct (Z.even (Qfloor y)); [left|right]; (split; [reflexivity|]);
      rewrite E; apply Qle_refl.
  - left. split; [reflexivity|]. apply Qlt_le_weak, E.
  - right. split; [reflexivity|]. apply Qlt_le_weak, E.
Qed.

(** Rounding to an integer does not cross an integer. *)
Lemma rne_ge (J : Z) (y : Q) : inject_Z J <= y -> (J <= rne y)%Z.
Proof.
  intros H. apply Qfloor_resp_le in H. rewrite Qfloor_Z in H.
  destruct (rne_cases y) as [[-> _]|[-> _]]; lia.
Qed.

Lemma rne_le (J : Z) (y : Q) : y <= inject_Z J -> (rne y <= J)%Z.
Proof.
  intros H. pose proof (Qfloor_le y) as Hf.
  destruct (rne_cases y) as [[-> _]|[-> Hhalf]].
  - rewrite Zle_Qle. eapply Qle_trans; eassumption.
  - assert (Hlt : inject_Z (Qfloor y) < inject_Z J).
    { apply Qlt_le_trans with y; [|exact H]. Lqa.lra. }
    rewrite <- Zlt_Qlt in Hlt. lia.
Qed.

(** Beyond the middle it goes up. *)
Lemma rne_gt (J : Z) (y : Q) : inject_Z J + (1 # 2) < y -> (J + 1 <= rne y)%Z.
Proof.
  intros H.
  assert (HJ : (J <= Qfloor y)%Z).
  { rewrite <- (Qfloor_Z J). apply Qfloor_resp_le. Lqa.lra. }
  destruct (rne_cases y) as [[-> Hhalf]|[-> _]]; [|lia].
  assert (Hlt : inject_Z J < inject_Z (Qfloor y)) by Lqa.lra.
  rewrite <- Zlt_Qlt in Hlt. lia.
Qed.

Lemma round_mag_scaled (fmt : format) (x : Q) :
  round_mag fmt x == inject_Z (rne (x / 2 ^ ulp_exp fmt x)) * 2 ^ ulp_exp fmt x.
Proof. unfold round_mag. apply Qred_correct. Qed.

(** The rounded magnitude against the multiples of the unit in the last
    place. *)
Lemma round_mag_le (fmt : format) (x : Q) (J : Z) :
  x <= inject_Z J * 2 ^ ulp_exp fmt x ->
  round_mag fmt x <= inject_Z J * 2 ^ ulp_exp fmt x.
Proof.
  intros H. rewrite round_mag_scaled.
  apply Qmult_le_compat_r; [|apply Qlt_le_weak, pow2_pos].
  rewrite <- Zle_Qle. apply rne_le.
  apply Qle_shift_div_r; [apply pow2_pos|exact H].
Qed.

Lemma round_mag_gt (fmt : format) (x : Q) (J : Z) :
  (inject_Z J + (1 # 2)) * 2 ^ ulp_exp fmt x < x ->
  inject_Z (J + 1) * 2 ^ ulp_exp fmt x <= round_mag fmt x.
Proof.
  intros H. rewrite round_mag_scaled.
  apply Qmult_le_compat_r; [|apply Qlt_le_weak, pow2_pos].
  rewrite <- Zle_Qle. apply rne_gt.
  apply Qlt_shift_div_l; [apply pow2_pos|exact H].
Qed.

(** An integer is a multiple of [2 ^ e] when [e <= 0]. *)
Lemma int_scaled (K e : Z) :
  (e <= 0)%Z -> inject_Z (K * 2 ^ (- e)) * 2 ^ e == inject_Z K.
Proof.
  intros He. rewrite inject_Z_mult, pow2_Z by lia.
  rewrite <- Qmult_assoc, <- pow2_add. replace (- e + e)%Z with 0%Z by lia.
  change (2 ^ 0) with 1. apply Qmult_1_r.
Qed.

Lemma ulp_exp_cases (fmt : format) (x : Q) :
  0 < x ->
  ulp_exp fmt x = emin fmt \/ 2 ^ (ulp_exp fmt x + (prec fmt - 1)) <= x.
Proof.
  intros Hx. unfold ulp_exp.
  destruct (Z.max_spec (floor_log2 x - (prec fmt - 1)) (emin fmt)) as [[_ ->]|[_ ->]].
  - left. reflexivity.
  - right.
    replace (floor_log2 x - (prec fmt - 1) + (prec fmt - 1))%Z with (floor_log2 x) by lia.
    apply floor_log2_le, Hx.
Qed.

(** A magnitude of at most [2 ^ k] rounds to at most [2 ^ k]. *)
Lemma round_mag_le_pow2 (fmt : format) (x : Q) (k : Z) :
  (1 <= prec fmt)%Z -> (emin fmt <= k)%Z ->
  0 < x -> x <= 2 ^ k -> round_mag fmt x <= 2 ^ k.
Proof.
  intros Hp He Hx Hk.
  assert (Hek : (ulp_exp fmt x <= k)%Z).
  { destruct (ulp_exp_cases fmt x Hx) as [E|H]; [lia|].
    assert (Hle : 2 ^ (ulp_exp fmt x + (prec fmt - 1)) <= 2 ^ k)
      by (eapply Qle_trans; eassumption).
    apply pow2_le_inv in Hle. lia. }
  assert (E : inject_Z (2 ^ (k - ulp_exp fmt x)) * 2 ^ ulp_exp fmt x == 2 ^ k).
  { rewrite pow2_Z by lia. rewrite <- pow2_add. apply Qpower_comp; [reflexivity|lia]. }
  rewrite <- E. apply round_mag_le. rewrite E. exact Hk.
Qed.

(** Below the range of the format nothing overflows. *)
Lemma round_finite (fmt : format) (neg : bool) (x : Q) (k : Z) :
  (1 <= prec fmt)%Z -> (emin fmt <= k < emax fmt)%Z ->
  0 <= x -> x <= 2 ^ k ->
  exists m, round fmt neg x = Finite neg m.
Proof.
  intros Hp Hk Hx Hxk. unfold round.
  destruct (Qeq_bool x 0) eqn:E0; [eexists; reflexivity|].
  apply Qeq_bool_neq in E0.
  assert (Hpos : 0 < x).
  { apply Qle_lteq in Hx. destruct Hx as [H|H]; [exact H|]. exfalso. apply E0. symmetry. exact H. }
  destruct (Qle_bool (2 ^ emax fmt) (round_mag fmt x)) eqn:E; [|eexists; reflexivity].
  exfalso. apply Qle_bool_iff in E.
  pose proof (round_mag_le_pow2 fmt x k Hp ltac:(lia) Hpos Hxk) as Hr.
  assert (Hlt : 2 ^ k < 2 ^ emax fmt) by (apply Qpower_lt_compat_l; [lia|reflexivity]).
  apply (Qlt_irrefl (2 ^ k)). eapply Qlt_le_trans; [exact Hlt|]. eapply Qle_trans; eassumption.
Qed.

End RoundingFacts.

(** ** [ImageViewer._grid_auto] *)

Section GridFacts.

Import IEEE Gui.
Local Open Scope Q_scope.

Lemma inject_Z_pos (z : Z) : (1 <= z)%Z -> 0 < inject_Z z.
Proof. intros Hz. change 0 with (inject_Z 0). rewrite <- Zlt_Qlt. lia. Qed.

Lemma quotient_pos (a b : Z) : (1 <= a)%Z -> (1 <= b)%Z -> 0 < inject_Z a / inject_Z b.
Proof.
  intros Ha Hb. apply Qlt_shift_div_l; [apply inject_Z_pos, Hb|].
  rewrite Qmult_0_l. apply inject_Z_pos, Ha.
Qed.

Lemma quotient_le (a b : Z) :
  (0 <= a)%Z -> (1 <= b)%Z -> inject_Z a / inject_Z b <= inject_Z a.
Proof.
  intros Ha Hb. apply Qle_shift_div_r; [apply inject_Z_pos, Hb|].
  rewrite <- inject_Z_mult, <- Zle_Qle. nia.
Qed.

Lemma quotient_mult (a b : Z) :
  (1 <= b)%Z -> inject_Z a == inject_Z a / inject_Z b * inject_Z b.
Proof.
  intros Hb. rewrite Qmult_comm, Qmult_div_r; [reflexivity|].
  intros E. pose proof (inject_Z_pos b Hb) as H. rewrite E in H. exact (Qlt_irrefl 0 H).
Qed.

(** The integers that [_grid_auto] turns into floats are in range. *)
Lemma of_int_finite (z : Z) :
  (0 <= z <= 2 ^ 200)%Z -> exists m, of_int z = Ok (Finite false m).
Proof.
  intros Hz. unfold of_int.
  rewrite (proj2 (Z.ltb_ge z 0)) by lia. rewrite Z.abs_eq by lia.
  destruct (round_finite binary64 false (inject_Z z) 200) as [m ->].
  - cbn. lia.
  - cbn. lia.
  - change 0 with (inject_Z 0). rewrite <- Zle_Qle. lia.
  - rewrite <- pow2_Z by lia. rewrite <- Zle_Qle. lia.
  - exists m. reflexivity.
Qed.

Lemma truediv_finite (a b : Z) :
  (0 <= a <= 2 ^ 200)%Z -> (1 <= b)%Z -> exists m, truediv a b = Ok (Finite false m).
Proof.
  intros Ha Hb. unfold truediv.
  rewrite (proj2 (Z.eqb_neq b 0)) by lia.
  rewrite (proj2 (Z.ltb_ge a 0)), (proj2 (Z.ltb_ge b 0)) by lia.
  rewrite !Z.abs_eq by lia. cbn [xorb].
  destruct (round_finite binary64 false (inject_Z a / inject_Z b) 200) as [m ->].
  - cbn. lia.
  - cbn. lia.
  - apply Qle_shift_div_l; [apply inject_Z_pos, Hb|].
    rewrite Qmult_0_l. change 0 with (inject_Z 0). rewrite <- Zle_Qle. lia.
  - eapply Qle_trans; [apply quotient_le; lia|].
    rewrite <- pow2_Z by lia. rewrite <- Zle_Qle. lia.
  - exists m. reflexivity.
Qed.

(** On counts below [2 ^ 53] the rounding of the quotient does not move
    its ceiling: [math.ceil(a / b)] is the ceiling of the exact
    quotient. *)
Lemma ceil_div_exact (a b : Z) :
  exact_count a -> exact_count b ->
  ceil_div a b = Ok (Qceiling (inject_Z a / inject_Z b)).
Proof.
  intros [Ha1 Ha2] [Hb1 Hb2]. unfold ceil_div, truediv.
  rewrite (proj2 (Z.eqb_neq b 0)) by lia.
  rewrite (proj2 (Z.ltb_ge a 0)), (proj2 (Z.ltb_ge b 0)) by lia.
  rewrite !Z.abs_eq by lia. cbn [xorb].
  set (x := inject_Z a / inject_Z b).
  pose proof (inject_Z_pos b Hb1) as Hpb.
  assert (Hx : 0 < x) by (apply quotient_pos; lia).
  assert (Hxa : x <= inject_Z a) by (apply quotient_le; lia).
  assert (Hxb : inject_Z a == x * inject_Z b) by (apply quotient_mult; lia).
  assert (Ha53 : inject_Z a < 2 ^ 53).
  { rewrite <- pow2_Z by lia. rewrite <- Zlt_Qlt. exact Ha2. }
  assert (Hb53 : inject_Z b < 2 ^ 53).
  { rewrite <- pow2_Z by lia. rewrite <- Zlt_Qlt. exact Hb2. }
  set (e := ulp_exp binary64 x).
  pose proof (ulp_exp_cases binary64 x Hx) as Hcases. fold e in Hcases.
  cbn [prec emin binary64] in Hcases.
  assert (He : (e <= 0)%Z).
  { destruct Hcases as [E|H]; [lia|].
    assert (Hlt : 2 ^ (e + (53 - 1)) < 2 ^ 53).
    { eapply Qle_lt_trans; [exact H|]. eapply Qle_lt_trans; eassumption. }
    apply pow2_lt_inv in Hlt. lia. }
  (* the unit in the last place is below twice the step [1 / b] of the quotients *)
  assert (Hstep : inject_Z b * 2 ^ e < 2).
  { destruct Hcases as [E|H].
    - rewrite E. apply Qlt_trans with (2 ^ 53 * 2 ^ (-1074)).
      + apply Qmult_lt_compat_r; [apply pow2_pos|exact Hb53].
      + reflexivity.
    - apply (Qmult_lt_r _ _ (2 ^ 52)); [apply pow2_pos|].
      apply Qle_lt_trans with (inject_Z a).
      + rewrite Hxb. rewrite <- Qmult_assoc, <- pow2_add.
        rewrite (Qmult_comm (inject_Z b)).
        apply Qmult_le_compat_r; [|apply Qlt_le_weak, Hpb].
        replace (e + 52)%Z with (e + (53 - 1))%Z by lia. exact H.
      + exact Ha53. }
  set (c := Qceiling x).
  pose proof (Qle_ceiling x) as Hc. fold c in Hc.
  pose proof (Qceiling_lt x) as HK. fold c in HK.
  assert (Hupper : round_mag binary64 x <= inject_Z c).
  { rewrite <- (int_scaled c e He). apply round_mag_le. fold e.
    rewrite (int_scaled c e He). exact Hc. }
  assert (Hlower : inject_Z (c - 1) < round_mag binary64 x).
  { assert (Hgap : inject_Z (c - 1) + 1 / inject_Z b <= x).
    { assert (HZ : ((c - 1) * b + 1 <= a)%Z).
      { assert (Hlt : inject_Z ((c - 1) * b) < inject_Z a).
        { rewrite inject_Z_mult, Hxb. apply Qmult_lt_compat_r; assumption. }
        rewrite <- Zlt_Qlt in Hlt. lia. }
      apply Qle_trans with (inject_Z ((c - 1) * b + 1) / inject_Z b).
      - rewrite inject_Z_plus, inject_Z_mult. apply Qle_lteq. right. field.
        intros E. rewrite E in Hpb. exact (Qlt_irrefl 0 Hpb).
      - unfold x. apply Qmult_le_compat_r.
        + rewrite <- Zle_Qle. exact HZ.
        + apply Qlt_le_weak, Qinv_lt_0_compat, Hpb. }
    assert (Hhalf : 2 ^ e * (1 # 2) < 1 / inject_Z b).
    { apply Qlt_shift_div_l; [exact Hpb|].
      setoid_replace (2 ^ e * (1 # 2) * inject_Z b) with (inject_Z b * 2 ^ e * (1 # 2)) using relation Qeq by ring.
      Lqa.lra. }
    apply Qlt_le_trans with (inject_Z ((c - 1) * 2 ^ (- e) + 1) * 2 ^ e).
    - rewrite inject_Z_plus, Qmult_plus_distr_l, (int_scaled (c - 1) e He).
      pose proof (pow2_pos e). change (inject_Z 1) with 1. Lqa.lra.
    - apply round_mag_gt. fold e.
      rewrite Qmult_plus_distr_l, (int_scaled (c - 1) e He).
      setoid_replace ((1 # 2) * 2 ^ e) with (2 ^ e * (1 # 2)) using relation Qeq by ring.
      Lqa.lra. }
  unfold round.
  rewrite (proj1 (not_true_iff_false (Qeq_bool x 0))).
  2:{ intros E. apply Qeq_bool_eq in E. rewrite E in Hx. exact (Qlt_irrefl 0 Hx). }
  rewrite (proj1 (not_true_iff_false (Qle_bool (2 ^ emax binary64) (round_mag binary64 x)))).
  2:{ intros E. apply Qle_bool_iff in E. cbn [emax binary64] in E.
      assert (H53 : 2 ^ 53 <= 2 ^ 1024) by (apply pow2_le; lia).
      apply (Qlt_irrefl (2 ^ 53)).
      eapply Qle_lt_trans; [exact H53|]. eapply Qle_lt_trans; [exact E|].
      eapply Qle_lt_trans; [exact Hupper|].
      eapply Qle_lt_trans; [|exact Ha53].
      rewrite <- Zle_Qle.
      apply Z.le_trans with (Qceiling (inject_Z a));
        [apply Qceiling_resp_le; exact Hxa|rewrite Qceiling_Z; lia]. }
  cbn [rbind ceil value]. f_equal.
  apply Z.le_antisymm.
  - rewrite <- (Qceiling_Z c). apply Qceiling_resp_le. exact Hupper.
  - assert (Hlt : inject_Z (c - 1) < inject_Z (Qceiling (round_mag binary64 x))).
    { eapply Qlt_le_trans; [exact Hlower|apply Qle_ceiling]. }
    rewrite <- Zlt_Qlt in Hlt. lia.
Qed.

(** [math.ceil(a / b)] times [b] covers [a], with less than [b] to
    spare. *)
Lemma ceil_div_tight (a b c : Z) :
  exact_count a -> exact_count b ->
  ceil_div a b = Ok c -> (a <= c * b)%Z /\ ((c - 1) * b < a)%Z.
Proof.
  intros Ha Hb Hc. rewrite (ceil_div_exact a b Ha Hb) in Hc. injection Hc as <-.
  destruct Hb as [Hb _]. pose proof (inject_Z_pos b Hb) as Hpos.
  pose proof (quotient_mult a b Hb) as E.
  set (x := inject_Z a / inject_Z b) in *.
  split.
  - rewrite Zle_Qle, inject_Z_mult, E.
    apply Qmult_le_compat_r; [apply Qle_ceiling|]. apply Qlt_le_weak, Hpos.
  - rewrite Zlt_Qlt, inject_Z_mult, E.
    apply Qmult_lt_compat_r; [exact Hpos|]. apply Qceiling_lt.
Qed.

Lemma ceil_div_covers (a b : Z) :
  exact_count a -> exact_count b ->
  exists c, ceil_div a b = Ok c /\ (a <= c * b)%Z /\ ((c - 1) * b < a)%Z.
Proof.
  intros Ha Hb. eexists. split; [apply ceil_div_exact; assumption|].
  apply ceil_div_tight; [assumption..|]. apply ceil_div_exact; assumption.
Qed.

(** A grid of [n_rows] rows in the search: its columns cover the images
    and the last one is in use, whatever the score. *)
Lemma candidate_fits (rh rw : Z) (aspect : float) (nb_image n_rows : Z) :
  (1 <= rh <= 3)%Z -> (1 <= rw <= 3)%Z ->
  exact_count nb_image -> (1 <= n_rows <= nb_image)%Z ->
  exists n_cols empty,
    candidate rh rw aspect nb_image n_rows = Ok (n_cols, empty)
    /\ (nb_image <= n_rows * n_cols)%Z
    /\ (1 <= n_cols)%Z /\ (n_rows * (n_cols - 1) < nb_image)%Z.
Proof.
  intros Hrh Hrw HN Hr.
  assert (Hrc : exact_count n_rows) by (destruct HN; split; lia).
  destruct (ceil_div_covers nb_image n_rows HN Hrc) as (n_cols & Hc & Hcov & Htight).
  destruct HN as [HN1 HN2].
  assert (Hcols : (1 <= n_cols <= nb_image)%Z) by nia.
  exists n_cols.
  unfold candidate. rewrite Hc. cbn [rbind].
  set (nr := (n_rows * rh)%Z). set (nc := (n_cols * rw)%Z).
  assert (Hnr : (1 <= nr <= 2 ^ 55)%Z) by (unfold nr; nia).
  assert (Hnc : (1 <= nc <= 2 ^ 55)%Z) by (unfold nc; nia).
  assert (Hsq : forall u v, (1 <= u <= 2 ^ 55)%Z -> (1 <= v <= 2 ^ 55)%Z ->
                       (0 <= u * v <= 2 ^ 200)%Z).
  { intros u v Hu Hv. split; [nia|].
    apply Z.le_trans with (2 ^ 55 * 2 ^ 55)%Z; [|lia].
    apply Z.mul_le_mono_nonneg; lia. }
  destruct (truediv_finite nc nr ltac:(lia) ltac:(lia)) as [ia ->]. cbn [rbind].
  assert (Houter : exists oa,
             (if flt (Finite false ia) aspect
              then let* a := of_int (nr * nr) in Ok (fmul binary64 a aspect)
              else let* a := of_int (nc * nc) in Ok (fdiv binary64 a aspect)) = Ok oa).
  { destruct (flt _ _).
    - destruct (of_int_finite (nr * nr) (Hsq nr nr Hnr Hnr)) as [m ->]. eexists. reflexivity.
    - destruct (of_int_finite (nc * nc) (Hsq nc nc Hnc Hnc)) as [m ->]. eexists. reflexivity. }
  destruct Houter as [oa ->]. cbn [rbind].
  destruct (of_int_finite (nc * nr) (Hsq nc nr Hnc Hnr)) as [m1 ->]. cbn [rbind].
  assert (Hspare : (0 <= (n_rows * n_cols - nb_image) * (rh * rw) <= 2 ^ 200)%Z).
  { assert (H1 : (0 <= n_rows * n_cols - nb_image <= 2 ^ 55)%Z) by nia.
    assert (H2 : (1 <= rh * rw <= 2 ^ 55)%Z) by nia.
    split; [nia|].
    apply Z.le_trans with (2 ^ 55 * 2 ^ 55)%Z; [|lia].
    apply Z.mul_le_mono_nonneg; lia. }
  destruct (of_int_finite _ Hspare) as [m2 ->]. cbn [rbind].
  destruct (truediv_finite (Z.max nr nc) (Z.min nr nc) ltac:(lia) ltac:(lia)) as [el ->].
  cbn [rbind]. eexists. split; [reflexivity|]. split; [lia|]. split; [lia|nia].
Qed.

Lemma search_fits (rh rw : Z) (aspect : float) (nb_image : Z) (rows : list Z) :
  (1 <= rh <= 3)%Z -> (1 <= rw <= 3)%Z -> exact_count nb_image ->
  Forall (fun r => (1 <= r <= nb_image)%Z) rows ->
  forall best_empty best_size,
    (rows <> [] /\ best_empty = None)
    \/ (covers nb_image best_size /\ snug nb_image best_size) ->
    exists size,
      search rh rw aspect nb_image rows best_empty best_size = Ok size
      /\ covers nb_image size /\ snug nb_image size.
Proof.
  intros Hrh Hrw HN Hrows.
  induction Hrows as [|r rows Hr _ IH]; intros best_empty best_size Hinv.
  - destruct Hinv as [[Hne _]|Hfit]; [contradiction|].
    exists best_size. split; [reflexivity|assumption].
  - cbn [search].
    destruct (candidate_fits rh rw aspect nb_image r Hrh Hrw HN Hr)
      as (n_cols & empty & -> & Hcov & Hcols & Htight).
    cbn [rbind].
    assert (Hnew : covers nb_image (Some r, Some n_cols)
                   /\ snug nb_image (Some r, Some n_cols)).
    { split; exists r, n_cols; (split; [reflexivity|]); [assumption|].
      split; [exact Hr|]. split; assumption. }
    destruct Hinv as [[_ ->]|Hold].
    + apply IH. right. exact Hnew.
    + destruct (match best_empty with None => true | Some b => flt empty b end);
        apply IH; right; assumption.
Qed.

Lemma range1_bounds (n : Z) : Forall (fun r => (1 <= r <= n)%Z) (range1 n).
Proof.
  unfold range1. apply Forall_map, Forall_forall. intros i Hi.
  apply list_elem_of_In, in_seq in Hi. cbn. lia.
Qed.

Lemma range1_nonempty (n : Z) : (1 <= n)%Z -> range1 n <> [].
Proof.
  intros Hn. unfold range1. destruct (Z.to_nat n) eqn:E; [lia|]. discriminate.
Qed.

(** What [_grid_auto] returns on counts below [2 ^ 53]: a grid that
    holds the images and has no line to spare. *)
Lemma grid_auto_fits
      (grid : option Z * option Z) (layout : string) (fig_size : float * float)
      (nb_image : Z) :
  exact_count nb_image ->
  layout = "row"%string \/ layout = "col"%string \/ layout = "orth"%string ->
  grid_open grid ->
  exists rows cols,
    _grid_auto grid layout fig_size nb_image = Ok (Some rows, Some cols)
    /\ (nb_image <= rows * cols)%Z
    /\ (1 <= rows)%Z /\ (1 <= cols)%Z
    /\ match grid with
       | (None, Some _) => ((rows - 1) * cols < nb_image)%Z
       | (None, None) => (rows * (cols - 1) < nb_image)%Z /\ (rows <= nb_image)%Z
       | _ => (rows * (cols - 1) < nb_image)%Z
       end.
Proof.
  intros HN Hlay Hgrid.
  destruct grid as [[gx|] [gy|]]; cbn in Hgrid; [contradiction| | |].
  - destruct (ceil_div_covers nb_image gx HN Hgrid) as (c & Hc & Hcov & Htight).
    exists gx, c. cbn [_grid_auto]. rewrite Hc.
    destruct HN, Hgrid. split; [reflexivity|]. repeat split; nia.
  - destruct (ceil_div_covers nb_image gy HN Hgrid) as (c & Hc & Hcov & Htight).
    exists c, gy. cbn [_grid_auto]. rewrite Hc.
    destruct HN, Hgrid. split; [reflexivity|]. repeat split; nia.
  - assert (Hsearch : forall rh rw aspect, (1 <= rh <= 3)%Z -> (1 <= rw <= 3)%Z ->
              exists size, search rh rw aspect nb_image (range1 nb_image) None (None, None)
                           = Ok size /\ covers nb_image size /\ snug nb_image size).
    { intros rh rw aspect Hrh Hrw.
      apply search_fits; auto using range1_bounds.
      left. split; [apply range1_nonempty; destruct HN; lia|reflexivity]. }
    cbn [_grid_auto].
    destruct Hlay as [-> | [-> | ->]]; cbn [String.eqb Ascii.eqb Bool.eqb rbind];
      [destruct (Hsearch 1%Z 3%Z (fdiv binary64 (fst fig_size) (snd fig_size)))
        as (size & Hs & (r & c & -> & Hcov) & (r' & c' & E & Hr & Hc & Ht)); try lia
      |destruct (Hsearch 3%Z 1%Z (fdiv binary64 (fst fig_size) (snd fig_size)))
        as (size & Hs & (r & c & -> & Hcov) & (r' & c' & E & Hr & Hc & Ht)); try lia
      |destruct (Hsearch 2%Z 2%Z (fdiv binary64 (fst fig_size) (snd fig_size)))
        as (size & Hs & (r & c & -> & Hcov) & (r' & c' & E & Hr & Hc & Ht)); try lia];
      injection E as <- <-; exists r, c; (split; [exact Hs|]); repeat split; lia.
Qed.

(** C7, amended. For a count [nb_image] of images from 1 to below
    [2 ^ 53], a layout among 'row', 'col' and 'orth', a figure of any
    size, and a grid with no dimension fixed or one dimension fixed to a
    count from 1 to below [2 ^ 53], [_grid_auto] returns a pair
    [(rows, cols)] with [rows * cols >= nb_image]. *)
Theorem grid_auto_covers
        (grid : option Z * option Z) (layout : string) (fig_size : float * float)
        (nb_image : Z) :
  exact_count nb_image ->
  layout = "row"%string \/ layout = "col"%string \/ layout = "orth"%string ->
  grid_open grid ->
  exists rows cols,
    _grid_auto grid layout fig_size nb_image = Ok (Some rows, Some cols)
    /\ (nb_image <= rows * cols)%Z.
Proof.
  intros HN Hlay Hgrid.
  destruct (grid_auto_fits grid layout fig_size nb_image HN Hlay Hgrid)
    as (rows & cols & Hok & Hcov & _).
  exists rows, cols. split; assumption.
Qed.

End GridFacts.

Lemma grid_auto_covers_witness :
  Gui.exact_count 5
  /\ Gui.grid_open (None, None)
  /\ exists rows cols,
      Gui._grid_auto (None, None) "orth" (IEEE.Finite false 8, IEEE.Finite false 6) 5
      = Ok (Some rows, Some cols)
      /\ (5 <= rows * cols)%Z.
Proof.
  assert (H5 : Gui.exact_count 5) by (unfold Gui.exact_count; lia).
  split; [exact H5|]. split; [exact I|].
  apply (grid_auto_covers (None, None) "orth" (IEEE.Finite false 8, IEEE.Finite false 6) 5%Z);
    [exact H5 | right; right; reflexivity | exact I].
Defined.

(** C7 as it was claimed fails where a fixed dimension is not a positive
    count, and where a count is too large for binary64.  With the
    columns fixed to -2, three images get the grid (-1, -2), of product
    2; with the columns fixed to 0 the division raises; and
    [2 ^ 53 + 1] images in one column get [2 ^ 53] rows. *)
Lemma grid_auto_counterexample :
  let fig := (IEEE.Finite false 8, IEEE.Finite false 6) in
  (Gui._grid_auto (None, Some (-2)%Z) "orth" fig 3 = Ok (Some (-1)%Z, Some (-2)%Z)
   /\ ~ (3 <= -1 * -2)%Z)
  /\ Gui._grid_auto (None, Some 0%Z) "orth" fig 3 = Raise ZeroDivisionError
  /\ (Gui._grid_auto (None, Some 1%Z) "orth" fig 9007199254740993
      = Ok (Some 9007199254740992%Z, Some 1%Z)
      /\ ~ (9007199254740993 <= 9007199254740992 * 1)%Z).
Proof.
  cbv zeta. split; [split; [vm_compute; reflexivity|lia]|].
  split; [reflexivity|]. split; [vm_compute; reflexivity|lia].
Qed.

Example grid_auto_5_orth :
  Gui._grid_auto (None, None) "orth" (IEEE.Finite false 8, IEEE.Finite false 6) 5
  = Ok (Some 2%Z, Some 3%Z).
Proof. vm_compute. reflexivity. Qed.

Example grid_auto_7_two_columns :
  Gui._grid_auto (None, Some 2%Z) "col" (IEEE.Finite false 8, IEEE.Finite false 6) 7
  = Ok (Some 4%Z, Some 2%Z).
Proof. vm_compute. reflexivity. Qed.

(** The quotient of two counts is rounded before [math.ceil] sees it:
    from [2 ^ 53] on the ceiling can be that of another number, to
    either side. *)
Example ceil_div_rounds :
  Gui.ceil_div 9007199254740993 1 = Ok 9007199254740992%Z
  /\ Gui.ceil_div 9007199254740995 1 = Ok 9007199254740996%Z.
Proof. split; vm_compute; reflexivity. Qed.


(** ** [derivatives] *)

Section PhaseFacts.

Import Phase.
Local Open Scope R_scope.

Lemma cos_sin_unit (p : R) : cos p * cos p + sin p * sin p = 1.
Proof. pose proof (sin2_cos2 p) as H. unfold Rsqr in H. lra. Qed.

Lemma tsum_zeros {A : Type} (l : list A) : tsum (map (fun _ => 0) l) = 0.
Proof. induction l as [|a l IH]; cbn; [reflexivity|]. unfold tsum in IH. rewrite IH. lra. Qed.

(** The voxel-wise content of [derivatives] at a perfect fit. *)
Lemma perfect_fit_voxel (m p : R) :
  0 < m ->
  exp (ln m) * (exp (ln m) - (cos p * cos p + sin p * sin p) * m) = 0
  /\ exp (ln m) * ((cos p * sin p - sin p * cos p) * m) = 0
  /\ 5 / 10 * (m * m + exp (ln m) * exp (ln m))
     - exp (ln m) * ((cos p * cos p + sin p * sin p) * m) = 0.
Proof.
  intros Hm. rewrite (exp_ln m Hm), cos_sin_unit. repeat split; lra.
Qed.

(** C4, amended. In exact arithmetic, at a perfect fit,
    [fit_log_magnitude = log(magnitude)] with every magnitude positive
    and [fit_phase = phase] of the shape of the magnitude, [derivatives]
    returns a total negative log-likelihood of 0 and a gradient that is
    0 in every voxel, for the log-magnitude and for the phase. *)
Theorem derivatives_perfect_fit (magnitude phase : list R) :
  length phase = length magnitude ->
  Forall (fun m => 0 < m) magnitude ->
  let '(ll, (g0, g1), _) := derivatives magnitude phase (map ln magnitude) phase in
  ll = 0
  /\ g0 = map (fun _ => 0) magnitude
  /\ g1 = map (fun _ => 0) magnitude.
Proof.
  intros Hlen Hpos. unfold derivatives.
  match goal with |- context [tsum ?l] => set (per_voxel := l) end.
  assert (H : per_voxel = map (fun _ => 0) magnitude
              /\ tmul (map exp (map ln magnitude))
                   (tsub (map exp (map ln magnitude))
                      (tmul (tadd (tmul (map cos phase) (map cos phase))
                                  (tmul (map sin phase) (map sin phase))) magnitude))
                 = map (fun _ => 0) magnitude
              /\ tmul (map exp (map ln magnitude))
                   (tmul (tsub (tmul (map cos phase) (map sin phase))
                               (tmul (map sin phase) (map cos phase))) magnitude)
                 = map (fun _ => 0) magnitude).
  { subst per_voxel. revert phase Hlen.
    induction Hpos as [|m magnitude Hm _ IH]; intros [|p phase] Hlen;
      cbn in Hlen; try discriminate; [repeat split|].
    destruct (IH phase ltac:(lia)) as (IH1 & IH2 & IH3).
    destruct (perfect_fit_voxel m p Hm) as (E1 & E2 & E3).
    unfold tmul, tadd, tsub, tscale in *. cbn [map zip_with].
    rewrite IH1, IH2, IH3, E1, E2, E3. repeat split. }
  destruct H as (-> & -> & ->). rewrite tsum_zeros. repeat split.
Qed.

End PhaseFacts.

Lemma derivatives_perfect_fit_witness :
  length [0; 1]%R = length [1; 2]%R
  /\ Forall (fun m => (0 < m)%R) [1; 2]%R
  /\ let '(ll, (g0, g1), _) :=
       Phase.derivatives [1; 2]%R [0; 1]%R (map ln [1; 2]%R) [0; 1]%R in
     ll = 0%R /\ g0 = [0; 0]%R /\ g1 = [0; 0]%R.
Proof.
  assert (Hpos : Forall (fun m => (0 < m)%R) [1; 2]%R) by (repeat constructor; lra).
  split; [reflexivity|]. split; [exact Hpos|].
  exact (derivatives_perfect_fit [1; 2]%R [0; 1]%R eq_refl Hpos).
Defined.

(** On float tensors the square of a large magnitude is [inf], and what
    is added to it or taken from it leaves [inf] or [nan]. *)
Section OverflowFacts.

Import IEEE.

Lemma fadd_inf_or_nan (fmt : format) (x y : float) :
  inf_or_nan x -> inf_or_nan (fadd fmt x y).
Proof.
  intros [-> | ->]; [|right; reflexivity].
  destruct y as [s m|[|]|]; cbn; [left|right|left|right]; reflexivity.
Qed.

Lemma fsub_inf_or_nan (fmt : format) (x y : float) :
  inf_or_nan x -> inf_or_nan (fsub fmt x y).
Proof.
  intros H. unfold fsub. apply fadd_inf_or_nan, H.
Qed.

Lemma fhalf_inf_or_nan (fmt : format) (x : float) :
  inf_or_nan x -> inf_or_nan (fmul fmt (Finite false (1 # 2)) x).
Proof. intros [-> | ->]; [left|right]; reflexivity. Qed.

Lemma fsum_one_inf_or_nan (x : float) : inf_or_nan x -> inf_or_nan (Phase.fsum [x]).
Proof. intros [-> | ->]; [left|right]; reflexivity. Qed.

Lemma square_overflows :
  fmul binary64 (Finite false (2 ^ 600)) (Finite false (2 ^ 600)) = Infinity false.
Proof. vm_compute. reflexivity. Qed.

End OverflowFacts.

(** C4 as it was claimed fails on float tensors: on the float64 image of
    the one voxel [2 ^ 600], with the phase 0, the negative
    log-likelihood at the perfect fit is [inf] or [nan] and not 0,
    whatever [exp], [log], [cos] and [sin] return. *)
Lemma derivatives_perfect_fit_counterexample :
  ~ exists fexp flog fcos fsin : IEEE.float -> IEEE.float,
      let magnitude := [IEEE.Finite false (2 ^ 600)] in
      let phase := [IEEE.Finite false 0] in
      let '(ll, _, _) :=
        Phase.derivatives64 fexp fcos fsin magnitude phase (map flog magnitude) phase in
      IEEE.feq ll (IEEE.Finite false 0) = true.
Proof.
  intros (fexp & flog & fcos & fsin & H). cbv zeta in H.
  unfold Phase.derivatives64 in H. cbn [map zip_with] in H.
  rewrite square_overflows in H.
  match type of H with
  | IEEE.feq ?ll _ = true => assert (Hll : IEEE.inf_or_nan ll)
  end.
  { apply fsum_one_inf_or_nan, fsub_inf_or_nan, fhalf_inf_or_nan, fadd_inf_or_nan.
    left. reflexivity. }
  destruct Hll as [E | E]; rewrite E in H; discriminate H.
Qed.

(** ** [mean_phase] *)

Section MeanPhaseFacts.

Import Phase.
Local Open Scope R_scope.

Ltac atan2_cases :=
  unfold atan2;
  repeat match goal with
         | |- context [Rlt_dec ?a ?b] => destruct (Rlt_dec a b); try lra
         | |- context [Rle_dec ?a ?b] => destruct (Rle_dec a b); try lra
         end.

Lemma atan2_0_pos (x : R) : 0 < x -> atan2 0 x = 0.
Proof.
  intros Hx. atan2_cases. unfold Rdiv. rewrite Rmult_0_l. apply atan_0.
Qed.

(** [atan2] recovers an angle of [(-PI, PI]] from its sine and cosine. *)
Lemma atan2_sin_cos (t : R) : - PI < t <= PI -> atan2 (sin t) (cos t) = t.
Proof.
  intros [Hlo Hhi]. pose proof PI_RGT_0 as Hpi.
  destruct (Rtotal_order t (- (PI / 2))) as [Hlt | [Heq | Hgt]].
  - (* third quadrant *)
    assert (Hc : cos t < 0).
    { rewrite <- cos_neg. apply cos_lt_0; lra. }
    assert (Hs : sin t < 0) by (apply sin_lt_0_var; lra).
    atan2_cases.
    replace (sin t / cos t) with (tan (t + PI)).
    + rewrite atan_tan; lra.
    + unfold tan. rewrite neg_sin, neg_cos. field. lra.
  - subst t. rewrite sin_neg, cos_neg, sin_PI2, cos_PI2. atan2_cases.
  - destruct (Rtotal_order t (PI / 2)) as [Hlt | [Heq | Hgt2]].
    + (* right half plane *)
      assert (Hc : 0 < cos t) by (apply cos_gt_0; lra).
      atan2_cases. apply atan_tan. lra.
    + subst t. rewrite sin_PI2, cos_PI2. atan2_cases.
    + (* second quadrant *)
      assert (Hc : cos t < 0) by (apply cos_lt_0; lra).
      assert (Hs : 0 <= sin t) by (apply sin_ge_0; lra).
      atan2_cases.
      replace (sin t / cos t) with (tan (t - PI)).
      * rewrite atan_tan; lra.
      * unfold tan.
        replace (sin t) with (- sin (t - PI))
          by (rewrite <- neg_sin; f_equal; lra).
        replace (cos t) with (- cos (t - PI))
          by (rewrite <- neg_cos; f_equal; lra).
        assert (cos (t - PI) <> 0).
        { intros E. assert (cos t = 0); [|lra].
          replace t with (t - PI + PI) by lra. rewrite neg_cos, E. lra. }
        field. assumption.
Qed.

Lemma tsum_replicate (f : R -> R) (n : nat) (t : R) :
  tsum (map f (replicate n t)) = INR n * f t.
Proof.
  induction n as [|n IH]; [cbn; lra|].
  rewrite S_INR. cbn [replicate map tsum foldr]. fold (tsum (map f (replicate n t))).
  rewrite IH. lra.
Qed.

Lemma tmean_replicate (f : R -> R) (n : nat) (t : R) :
  (0 < n)%nat -> tmean (map f (replicate n t)) = f t.
Proof.
  intros Hn. unfold tmean. rewrite tsum_replicate, length_map, length_replicate.
  field. apply not_0_INR. lia.
Qed.

Lemma mean_phase_example : mean_phase [0; 0; PI / 2; - (PI / 2)] None = 0.
Proof.
  unfold mean_phase, tmean. cbn [map tsum foldr length].
  rewrite cos_neg, sin_neg, cos_0, sin_0, cos_PI2, sin_PI2.
  replace ((0 + (0 + (1 + (- (1) + 0)))) / INR 4) with 0 by (unfold Rdiv; ring).
  apply atan2_0_pos. cbn [INR]. lra.
Qed.

Lemma mean_phase_2PI : mean_phase [2 * PI] None = 0.
Proof.
  unfold mean_phase, tmean. cbn [map tsum foldr length INR].
  rewrite sin_2PI, cos_2PI.
  replace ((0 + 0) / 1) with 0 by lra.
  apply atan2_0_pos. lra.
Qed.

(** C6, amended. [mean_phase] returns [atan2(mean_sin, mean_cos)], the
    means being weighted by [weight] over its sum when a weight is
    given and arithmetic means otherwise; on the unweighted field
    {0, 0, PI/2, -PI/2} it returns 0; and on a non-empty uniform field
    of value [t] it returns [t] provided [-PI < t <= PI]. *)
Theorem mean_phase_circular (t : R) (n : nat) :
  (0 < n)%nat ->
  - PI < t <= PI ->
  (forall phase weight,
      mean_phase phase (Some weight)
      = atan2 (weighted_mean (map sin phase) weight)
              (weighted_mean (map cos phase) weight))
  /\ (forall phase,
         mean_phase phase None
         = atan2 (arithmetic_mean (map sin phase)) (arithmetic_mean (map cos phase)))
  /\ mean_phase [0; 0; PI / 2; - (PI / 2)] None = 0
  /\ mean_phase (replicate n t) None = t.
Proof.
  intros Hn Ht. split; [reflexivity|]. split; [reflexivity|].
  split; [apply mean_phase_example|].
  unfold mean_phase. rewrite !tmean_replicate by assumption.
  apply atan2_sin_cos. assumption.
Qed.

End MeanPhaseFacts.

(** The uniform field of value [2 * PI] has mean phase 0, not [2 * PI]. *)
Lemma mean_phase_uniform_counterexample :
  Phase.mean_phase (replicate 1 (2 * PI)%R) None <> (2 * PI)%R.
Proof.
  change (replicate 1 (2 * PI)%R) with [(2 * PI)%R].
  rewrite mean_phase_2PI. pose proof PI_RGT_0. lra.
Qed.

Lemma mean_phase_circular_witness :
  (0 < 3)%nat /\ (- PI < 0 <= PI)%R
  /\ Phase.mean_phase (replicate 3 0%R) None = 0%R.
Proof.
  assert (H : (- PI < 0 <= PI)%R) by (pose proof PI_RGT_0; lra).
  split; [lia|]. split; [exact H|].
  apply (mean_phase_circular 0%R 3). lia. exact H.
Defined.

(** ** [phase_fit] *)

Section PhaseFitFacts.

Import Phase.
Local Open Scope R_scope.

Variable regulariser : list R * list R -> prm -> list R * list R.
Variable solve_field_fmg :
  list R * list R -> list R * list R -> prm -> list R * list R.
Variables (magnitude phase : list R).
Variable prec : R.
Variables (m0 m1 b0 b1 : R).

Local Abbreviation snap :=
  (fun n : nat => mkPrm [m0; m1 * factor_at n] [b0; b1 * factor_at n] "dct2").
Local Abbreviation body :=
  (fit_body regulariser solve_field_fmg magnitude phase prec m1 b1).
Local Abbreviation loop :=
  (fit_loop regulariser solve_field_fmg magnitude phase prec m1 b1).

Local Abbreviation opts_shape := (Phase.opts_shape m0 b0).

Lemma fit_body_opts (n_iter : nat) (st : fit_state) :
  opts_shape (opts st) ->
  opts (fst (body n_iter st)) = snap n_iter
  /\ used (fst (body n_iter st)) = used st ++ [snap n_iter].
Proof.
  intros ([x Hm] & [y Hb] & Hbd). unfold fit_body.
  destruct (derivatives _ _ _ _) as [[ll g] h].
  rewrite Hm, Hb, Hbd. cbn [membrane bending bound set_last length Nat.sub].
  destruct (xabs_lt _ _); cbn [fst opts used]; split; reflexivity.
Qed.

Lemma snap_shape (n : nat) : opts_shape (snap n).
Proof. repeat split; eexists; reflexivity. Qed.

Lemma fit_loop_used (todo : nat) :
  forall (n : nat) (st : fit_state),
    opts_shape (opts st) ->
    used st = map snap (seq 0 n) ->
    let r := loop todo n st in
    used r = map snap (seq 0 (length (used r)))
    /\ (n + Nat.min 1 todo <= length (used r) <= n + todo)%nat.
Proof.
  induction todo as [|todo IH]; intros n st Hshape Hused.
  - cbn [fit_loop]. cbv zeta. rewrite Hused, length_map, length_seq.
    split; [reflexivity|lia].
  - cbn [fit_loop]. cbv zeta.
    destruct (fit_body_opts n st Hshape) as [Ho Hu].
    destruct (body n st) as [st' stop]. cbn [fst] in Ho, Hu.
    assert (Hused' : used st' = map snap (seq 0 (S n))).
    { rewrite Hu, Hused, seq_S, map_app. reflexivity. }
    destruct stop.
    + rewrite Hused', length_map, length_seq. split; [reflexivity|lia].
    + assert (Hshape' : opts_shape (opts st')) by (rewrite Ho; apply snap_shape).
      destruct (IH (S n) st' Hshape' Hused') as [H1 H2].
      split; [exact H1|lia].
Qed.

End PhaseFitFacts.

(** The factor of the code is [1 + 10^(5 - n)]. *)
Lemma factor_at_formula (n : nat) : (Phase.factor_at n = 1 + 10 ^ 5 / 10 ^ n)%R.
Proof.
  unfold Phase.factor_at. f_equal.
  replace (5 - Z.of_nat n)%Z with (Z.of_nat 5 + - Z.of_nat n)%Z by lia.
  rewrite powerRZ_add by lra.
  rewrite powerRZ_neg', <- !pow_powerRZ. reflexivity.
Qed.

(** C5. The options used by the iterations of [phase_fit] are, in order,
    those of [prm_at]: at iteration [n] the first-channel membrane and
    bending weights are the initial [lam[0]]-derived values and the
    last-channel weights are their initial values times
    [1 + 10^(5 - n)]; the loop runs between 1 and 20 iterations. *)
Theorem phase_fit_scales_last_channel_only
        (estimate_noise_sd : list R -> R)
        (regulariser : list R * list R -> Phase.prm -> list R * list R)
        (solve_field_fmg : list R * list R -> list R * list R -> Phase.prm -> list R * list R)
        (magnitude phase : list R) (lam : R * R) (penalty : string * string) :
  let st := Phase.phase_fit_run estimate_noise_sd regulariser solve_field_fmg
                                magnitude phase lam penalty in
  Phase.used st = map (Phase.prm_at lam penalty) (seq 0 (length (Phase.used st)))
  /\ (1 <= length (Phase.used st) <= 20)%nat.
Proof.
  cbv zeta. unfold Phase.phase_fit_run.
  match goal with |- context [Phase.fit_loop _ _ _ _ _ _ _ _ _ ?st0] => set (st := st0) end.
  destruct (fit_loop_used regulariser solve_field_fmg magnitude phase
              (1 / (estimate_noise_sd magnitude * estimate_noise_sd magnitude))%R
              (fst lam * Phase.int_eq (fst penalty) "membrane")%R
              (snd lam * Phase.int_eq (snd penalty) "membrane")%R
              (fst lam * Phase.int_eq (fst penalty) "bending")%R
              (snd lam * Phase.int_eq (snd penalty) "bending")%R 20 0 st)
    as [Hused Hlen].
  - repeat split; eexists; reflexivity.
  - reflexivity.
  - split; [|exact Hlen].
    etransitivity; [exact Hused|]. apply map_ext. intros n.
    unfold Phase.prm_at. rewrite !factor_at_formula. reflexivity.
Qed.

Example factor_at_values :
  (Phase.factor_at 0 = 100001 /\ Phase.factor_at 5 = 2 /\ Phase.factor_at 6 = 11 / 10)%R.
Proof.
  unfold Phase.factor_at.
  change (5 - Z.of_nat 0)%Z with 5%Z.
  change (5 - Z.of_nat 5)%Z with 0%Z.
  change (5 - Z.of_nat 6)%Z with (-1)%Z.
  unfold powerRZ. simpl. repeat split; lra.
Qed.

(** * Further properties *)

(** ** [prepare] and [prepare_one] *)

Section PrepareMore.

Import Classic.

Variable to_integer : dtype -> IEEE.float -> IEEE.float.
Variable io_map : string -> result mapped_array.
Variable affine_default : list nat -> tensor.

Local Abbreviation prepare_one' := (prepare_one io_map affine_default).

(** What [prepare_one] returns is a pair, as a tuple or as a list. *)
Lemma prepare_one_pair (inp r : pyval) :
  prepare_one' inp = Ok r ->
  exists d a, r = PTuple [d; a] \/ r = PList [d; a].
Proof.
  destruct inp as [path|m|t|items|items]; cbn [prepare_one]; intros H.
  - destruct (io_map path); cbn in H; [|discriminate]. inversion H. eauto.
  - inversion H. eauto.
  - inversion H. eauto.
  - destruct items as [|first rest]; [discriminate|].
    destruct (prepare_one' first) as [r'|]; cbn [rbind] in H; [|discriminate].
    destruct (getitem r' 0); cbn [rbind] in H; [|discriminate].
    destruct (getitem r' 1); cbn [rbind] in H; [|discriminate].
    inversion H. eauto.
  - destruct items as [|first rest]; [discriminate|].
    destruct (prepare_one' first) as [r'|]; cbn [rbind] in H; [|discriminate].
    destruct (getitem r' 0); cbn [rbind] in H; [|discriminate].
    destruct (getitem r' 1); cbn [rbind] in H; [|discriminate].
    inversion H. eauto.
Qed.

(** What a raw array and its default orientation become: a [float32]
    tensor on the device [dv] with the shape it had, whose entries are
    those it had rounded to binary32, and left as they were when the
    tensor was [float32] already. *)
Lemma tensor_to_float32 (dv : device) (u : tensor) :
  tensor_to to_integer u (Some dv) (Some Float32)
  = mkTensor dv Float32 (t_shape u)
             (if decide (t_dtype u = Float32) then t_values u
              else map (IEEE.convert IEEE.binary32) (t_values u)).
Proof. reflexivity. Qed.

Lemma tensor_to_float32_again (dev : option device) (dv : device) (u : tensor) :
  tensor_to to_integer (tensor_to to_integer u dev (Some Float32)) (Some dv) (Some Float32)
  = tensor_to to_integer u (Some dv) (Some Float32).
Proof.
  unfold tensor_to. cbn [default t_device t_dtype t_shape t_values].
  rewrite decide_True by reflexivity. reflexivity.
Qed.

(** X1. On a non-empty batch of raw arrays [prepare] succeeds.  Every
    image comes back as a list of its data and of the default orientation
    of its shape, both [float32] tensors on the requested device (the
    device of the first array when none is requested) with the shape
    they had.  Their entries are rounded to binary32: a tensor that was
    [float32] keeps its entries, any other gets the nearest binary32
    number of each entry, or an infinity beyond the range. *)
Theorem prepare_raw_arrays_result (t : tensor) (ts : list tensor) (dev : option device) :
  let to32 := fun u : tensor =>
                mkTensor (default (t_device t) dev) Float32 (t_shape u)
                         (if decide (t_dtype u = Float32) then t_values u
                          else map (IEEE.convert IEEE.binary32) (t_values u)) in
  prepare to_integer io_map affine_default (map PTensor (t :: ts)) dev
  = Ok (map (fun u => PList [PTensor (to32 u);
                             PTensor (to32 (affine_default (t_shape u)))])
            (t :: ts)).
Proof.
  cbv zeta. unfold prepare. rewrite mapR_prepare_one_raw. cbn [rbind map].
  cbn [lookup list_lookup]. cbn [rbind getitem lookup list_lookup py_to as_tensor setitem].
  cbn [length]. destruct (decide (0 < 2)%nat) as [_|Hn]; [|lia].
  cbn [rbind insert list_insert].
  replace (t_device (tensor_to to_integer t dev (Some Float32)))
    with (default (t_device t) dev) by reflexivity.
  replace (t_dtype (tensor_to to_integer t dev (Some Float32))) with Float32 by reflexivity.
  set (dv := default (t_device t) dev).
  pose (ps := (tensor_to to_integer t dev (Some Float32), affine_default (t_shape t))
                :: map (fun u => (u, affine_default (t_shape u))) ts).
  replace (PList [PTensor (tensor_to to_integer t dev (Some Float32));
                  PTensor (affine_default (t_shape t))]
           :: map (fun u => PList [PTensor u; PTensor (affine_default (t_shape u))]) ts)
    with (map (fun p => PList [PTensor (fst p); PTensor (snd p)]) ps)
    by (unfold ps; cbn [map fst snd]; f_equal; rewrite map_map; reflexivity).
  rewrite mapR_to_backend_raw. unfold ps. cbn [map fst snd].
  rewrite tensor_to_float32_again, !tensor_to_float32. f_equal. f_equal.
  rewrite map_map. apply map_ext. intros u. cbn [fst snd].
  rewrite !tensor_to_float32. reflexivity.
Qed.

(** The cast of [prepare] on entries that binary32 does not hold:
    16777217 becomes 16777216, and [10 ^ 40] becomes [inf]. *)
Example cast_float32_rounds :
  cast to_integer Float32 (IEEE.Finite false 16777217) = IEEE.Finite false 16777216
  /\ cast to_integer Float32 (IEEE.Finite false (10 ^ 40)) = IEEE.Infinity false.
Proof. split; vm_compute; reflexivity. Qed.

(** X2. An empty batch, and a batch whose first input is an empty list or
    tuple, end in [IndexError]. *)
Theorem prepare_empty_raises (rest : list pyval) (dev : option device) :
  prepare to_integer io_map affine_default [] dev = Raise IndexError
  /\ prepare to_integer io_map affine_default (PList [] :: rest) dev = Raise IndexError
  /\ prepare to_integer io_map affine_default (PTuple [] :: rest) dev = Raise IndexError.
Proof. repeat split. Qed.

(** X3. Wrapping an input that resolves to the data [d] and the
    orientation [a]: alone in a list or tuple it resolves to [(d, a)];
    followed by a second item it resolves to [(d, second item)], the
    second item being taken as it is and any further item ignored. *)
Theorem prepare_one_orientation_override (first r : pyval) :
  prepare_one' first = Ok r ->
  exists d a,
    getitem r 0 = Ok d /\ getitem r 1 = Ok a
    /\ prepare_one' (PTuple [first]) = Ok (PTuple [d; a])
    /\ prepare_one' (PList [first]) = Ok (PTuple [d; a])
    /\ (forall aff0 rest,
           prepare_one' (PTuple (first :: aff0 :: rest)) = Ok (PTuple [d; aff0])
           /\ prepare_one' (PList (first :: aff0 :: rest)) = Ok (PTuple [d; aff0])).
Proof.
  intros H. destruct (prepare_one_pair first r H) as (d & a & Hr).
  exists d, a.
  assert (H0 : getitem r 0 = Ok d) by (destruct Hr as [-> | ->]; reflexivity).
  assert (H1 : getitem r 1 = Ok a) by (destruct Hr as [-> | ->]; reflexivity).
  split; [exact H0|]. split; [exact H1|].
  split; [|split; [|intros aff0 rest; split]];
    cbn [prepare_one]; rewrite H; cbn [rbind]; rewrite H0; cbn [rbind];
    rewrite H1; reflexivity.
Qed.

End PrepareMore.

Lemma prepare_one_orientation_override_witness :
  let t := Classic.mkTensor Classic.Cpu Classic.Float64 [2%nat; 2%nat]
             (map (IEEE.Finite false) [1; 2; 3; 4]%Q) in
  let a := Classic.mkTensor Classic.Cpu Classic.Float64 [3%nat; 3%nat] [] in
  let affine_default := fun _ : list nat => a in
  let io_map := fun _ : string => Raise ValueError in
  Classic.prepare_one io_map affine_default (Classic.PTensor t)
  = Ok (Classic.PList [Classic.PTensor t; Classic.PTensor a])
  /\ exists d a',
      Classic.getitem (Classic.PList [Classic.PTensor t; Classic.PTensor a]) 0 = Ok d
      /\ Classic.getitem (Classic.PList [Classic.PTensor t; Classic.PTensor a]) 1 = Ok a'
      /\ Classic.prepare_one io_map affine_default (Classic.PTuple [Classic.PTensor t])
         = Ok (Classic.PTuple [d; a'])
      /\ Classic.prepare_one io_map affine_default (Classic.PList [Classic.PTensor t])
         = Ok (Classic.PTuple [d; a'])
      /\ (forall aff0 rest,
             Classic.prepare_one io_map affine_default
               (Classic.PTuple (Classic.PTensor t :: aff0 :: rest))
             = Ok (Classic.PTuple [d; aff0])
             /\ Classic.prepare_one io_map affine_default
                  (Classic.PList (Classic.PTensor t :: aff0 :: rest))
                = Ok (Classic.PTuple [d; aff0])).
Proof.
  intros t a affine_default io_map. split; [reflexivity|].
  apply (prepare_one_orientation_override io_map affine_default (Classic.PTensor t)).
  reflexivity.
Defined.

(** ** The correction of the centre shift *)

Section UndoShiftMore.

Import Classic.

Context {K : Type}.
Variables (kzero : K) (kadd ksub kmul : K -> K -> K).

(** X4. The correction rewrites the translation column only: the linear
    block, the bottom row and the number of rows of the matrix are those
    of the exponential it starts from. *)
Theorem undo_shift_keeps_linear_block (D : nat) (M0 : matrix) (shift : list K) :
  square (S D) M0 ->
  length shift = D ->
  let M := undo_shift kzero kadd ksub kmul M0 shift in
  lin_block M = lin_block M0
  /\ List.last M [] = List.last M0 []
  /\ length M = S D.
Proof.
  intros Hsq Hs M. subst M.
  rewrite (undo_shift_correct kzero kadd ksub kmul D M0 shift Hsq Hs).
  destruct Hsq as [Hrows _]. unfold undo_shift_spec.
  set (v := vadd _ _ _).
  assert (Hv : length v = (length M0 - 1)%nat).
  { unfold v, vadd, vsub. rewrite !length_zip_with, length_trans_col, length_matvec,
      length_lin_block. lia. }
  split; [apply lin_block_set; exact Hv|]. split.
  - unfold set_trans_col. apply last_last.
  - rewrite length_set_trans_col by exact Hv. lia.
Qed.

End UndoShiftMore.

Lemma undo_shift_keeps_linear_block_witness :
  let M0 := [[2; 0; 3]; [0; 1; 4]; [0; 0; 1]]%Z in
  Classic.square 3 M0
  /\ length [10; 20]%Z = 2%nat
  /\ Classic.lin_block (Classic.undo_shift 0%Z Z.add Z.sub Z.mul M0 [10; 20]%Z)
     = Classic.lin_block M0
  /\ List.last (Classic.undo_shift 0%Z Z.add Z.sub Z.mul M0 [10; 20]%Z) []
     = List.last M0 []
  /\ length (Classic.undo_shift 0%Z Z.add Z.sub Z.mul M0 [10; 20]%Z) = 3%nat.
Proof.
  intros M0.
  assert (Hsq : Classic.square 3 M0) by (split; [reflexivity|repeat constructor]).
  split; [exact Hsq|]. split; [reflexivity|].
  exact (undo_shift_keeps_linear_block 0%Z Z.add Z.sub Z.mul 2 M0 [10; 20]%Z Hsq eq_refl).
Defined.

(** ** Rescaling *)

Section RescaleFacts.

Import Classic.
Local Open Scope Q_scope.

Lemma tensor_min_le (x0 : Q) (rest : list Q) :
  Forall (fun v => tensor_min x0 rest <= v) (x0 :: rest).
Proof.
  induction rest as [|y rest IH]; cbn [tensor_min foldr].
  - constructor; [apply Qle_refl|constructor].
  - fold (tensor_min x0 rest). inversion IH as [|? ? H0 Hr]; subst.
    assert (Hl : Qmin y (tensor_min x0 rest) <= tensor_min x0 rest) by apply Q.le_min_r.
    constructor; [eapply Qle_trans; eassumption|].
    constructor; [apply Q.le_min_l|].
    eapply Forall_impl; [exact Hr|]. intros v Hv. cbn in Hv.
    eapply Qle_trans; eassumption.
Qed.

Lemma tensor_max_ge (x0 : Q) (rest : list Q) :
  Forall (fun v => v <= tensor_max x0 rest) (x0 :: rest).
Proof.
  induction rest as [|y rest IH]; cbn [tensor_max foldr].
  - constructor; [apply Qle_refl|constructor].
  - fold (tensor_max x0 rest). inversion IH as [|? ? H0 Hr]; subst.
    assert (Hl : tensor_max x0 rest <= Qmax y (tensor_max x0 rest)) by apply Q.le_max_r.
    constructor; [eapply Qle_trans; eassumption|].
    constructor; [apply Q.le_max_l|].
    eapply Forall_impl; [exact Hr|]. intros v Hv. cbn in Hv.
    eapply Qle_trans; eassumption.
Qed.

Lemma tensor_min_in (x0 : Q) (rest : list Q) :
  Exists (fun v => v == tensor_min x0 rest) (x0 :: rest).
Proof.
  induction rest as [|y rest IH]; cbn [tensor_min foldr].
  - constructor. reflexivity.
  - fold (tensor_min x0 rest).
    destruct (Q.min_dec y (tensor_min x0 rest)) as [E|E].
    + apply Exists_cons_tl, Exists_cons_hd. symmetry. exact E.
    + inversion IH as [? ? H0|? ? Hr]; subst.
      * apply Exists_cons_hd. rewrite E. exact H0.
      * apply Exists_cons_tl, Exists_cons_tl.
        eapply Exists_impl; [exact Hr|]. intros v Hv. cbn in Hv. rewrite E. exact Hv.
Qed.

Lemma tensor_max_in (x0 : Q) (rest : list Q) :
  Exists (fun v => v == tensor_max x0 rest) (x0 :: rest).
Proof.
  induction rest as [|y rest IH]; cbn [tensor_max foldr].
  - constructor. reflexivity.
  - fold (tensor_max x0 rest).
    destruct (Q.max_dec y (tensor_max x0 rest)) as [E|E].
    + apply Exists_cons_tl, Exists_cons_hd. symmetry. exact E.
    + inversion IH as [? ? H0|? ? Hr]; subst.
      * apply Exists_cons_hd. rewrite E. exact H0.
      * apply Exists_cons_tl, Exists_cons_tl.
        eapply Exists_impl; [exact Hr|]. intros v Hv. cbn in Hv. rewrite E. exact Hv.
Qed.

Lemma tensor_min_le_max (x0 : Q) (rest : list Q) :
  tensor_min x0 rest <= tensor_max x0 rest.
Proof.
  pose proof (tensor_min_le x0 rest) as Hl. pose proof (tensor_max_ge x0 rest) as Hu.
  inversion Hl; inversion Hu; subst. eapply Qle_trans; eassumption.
Qed.

(** X5. An image that is not constant is rescaled to an image of the
    same size whose entries all lie in [0, 1], with a 0 where the minimum
    was and a 1 where the maximum was. *)
Theorem rescale_unit_range (x0 : Q) (rest : list Q) :
  ~ tensor_max x0 rest == tensor_min x0 rest ->
  exists y,
    rescale (x0 :: rest) = Rescaled y
    /\ length y = length (x0 :: rest)
    /\ Forall (fun v => 0 <= v <= 1) y
    /\ Exists (fun v => v == 0) y
    /\ Exists (fun v => v == 1) y.
Proof.
  intros Hne. unfold rescale.
  set (mn := tensor_min x0 rest). set (mx := tensor_max x0 rest).
  assert (Hpos : 0 < mx - mn).
  { pose proof (tensor_min_le_max x0 rest) as Hle. fold mn mx in Hle.
    apply Qle_lt_or_eq in Hle as [Hlt|Heq].
    - unfold Qminus. rewrite <- (Qplus_opp_r mn).
      apply Qplus_lt_l. exact Hlt.
    - exfalso. apply Hne. symmetry. exact Heq. }
  destruct (Qeq_bool (mx - mn) 0) eqn:E.
  { apply Qeq_bool_eq in E. rewrite E in Hpos. exfalso. exact (Qlt_irrefl 0 Hpos). }
  eexists. split; [reflexivity|]. rewrite map_map.
  split; [apply length_map|].
  assert (Hnz : ~ mx - mn == 0) by (intros E0; rewrite E0 in Hpos; exact (Qlt_irrefl 0 Hpos)).
  split; [|split].
  - apply Forall_map.
    pose proof (tensor_min_le x0 rest) as Hl. pose proof (tensor_max_ge x0 rest) as Hu.
    fold mn in Hl. fold mx in Hu.
    rewrite Forall_forall in Hl, Hu. apply Forall_forall. intros v Hv.
    specialize (Hl v Hv). specialize (Hu v Hv). cbn. split.
    + apply Qle_shift_div_l; [exact Hpos|]. rewrite Qmult_0_l.
      unfold Qminus. rewrite <- (Qplus_opp_r mn). apply Qplus_le_l. exact Hl.
    + apply Qle_shift_div_r; [exact Hpos|]. rewrite Qmult_1_l.
      unfold Qminus. apply Qplus_le_l. exact Hu.
  - apply Exists_map. eapply Exists_impl; [apply (tensor_min_in x0 rest)|].
    intros v Hv. cbn in Hv |- *. fold mn in Hv. rewrite Hv. field. exact Hnz.
  - apply Exists_map. eapply Exists_impl; [apply (tensor_max_in x0 rest)|].
    intros v Hv. cbn in Hv |- *. fold mx in Hv. rewrite Hv. field. exact Hnz.
Qed.

Lemma tensor_min_replicate (x0 : Q) (n : nat) :
  tensor_min x0 (replicate n x0) == x0.
Proof.
  induction n as [|n IH]; cbn [replicate tensor_min foldr]; [reflexivity|].
  fold (tensor_min x0 (replicate n x0)). rewrite IH. apply Q.min_id.
Qed.

Lemma tensor_max_replicate (x0 : Q) (n : nat) :
  tensor_max x0 (replicate n x0) == x0.
Proof.
  induction n as [|n IH]; cbn [replicate tensor_max foldr]; [reflexivity|].
  fold (tensor_max x0 (replicate n x0)). rewrite IH. apply Q.max_id.
Qed.

(** X6. A constant image is not rescaled: the range is zero and every
    entry is divided by it; an empty image has no minimum. *)
Theorem rescale_constant (x0 : Q) (n : nat) :
  rescale (replicate (S n) x0) = NotFinite /\ rescale [] = EmptyTensor.
Proof.
  split; [|reflexivity]. unfold rescale. cbn [replicate].
  destruct (Qeq_bool _ 0) eqn:E; [reflexivity|].
  apply Qeq_bool_neq in E. exfalso. apply E.
  rewrite tensor_min_replicate, tensor_max_replicate. ring.
Qed.

End RescaleFacts.

Lemma rescale_unit_range_witness :
  ~ (Classic.tensor_max 1 [3; 2] == Classic.tensor_min 1 [3; 2])%Q
  /\ exists y,
      Classic.rescale [1; 3; 2]%Q = Classic.Rescaled y
      /\ length y = 3%nat
      /\ Forall (fun v => 0 <= v <= 1)%Q y
      /\ Exists (fun v => v == 0)%Q y
      /\ Exists (fun v => v == 1)%Q y.
Proof.
  assert (H : ~ (Classic.tensor_max 1 [3; 2] == Classic.tensor_min 1 [3; 2])%Q)
    by (vm_compute; discriminate).
  split; [exact H|]. exact (rescale_unit_range 1%Q [3; 2]%Q H).
Defined.

Example rescale_1_3_2 :
  Classic.rescale [1; 3; 2]%Q = Classic.Rescaled [0 / 2; 2 / 2; 1 / 2]%Q.
Proof. vm_compute. reflexivity. Qed.

(** ** What the loop prints *)

Section PrintFacts.

Import Classic.

Context {St L : Type}.
Variable forward : St -> L.
Variable backward : L -> St -> St.
Variable optim_step : St -> St.
Variable lsub : L -> L -> L.
Variable abs_lt : L -> bool.
Variable inf : L.
Variable vars0 : St.

Local Abbreviation iter_events' := (iter_events forward backward optim_step lsub inf vars0).

Lemma tenth_step (k : nat) :
  ((S k + 9) / 10 = (k + 9) / 10 + (if k mod 10 =? 0 then 1 else 0))%nat.
Proof.
  pose proof (Nat.div_mod_eq k 10) as Hk.
  pose proof (Nat.mod_upper_bound k 10 ltac:(lia)) as Hb.
  destruct (Nat.eqb_spec (k mod 10) 0) as [E|E].
  - rewrite E in Hk.
    replace (S k + 9)%nat with (10 + k / 10 * 10)%nat by lia.
    replace (k + 9)%nat with (9 + k / 10 * 10)%nat by lia.
    rewrite !Nat.div_add by lia.
    change (10 / 10)%nat with 1%nat. change (9 / 10)%nat with 0%nat. lia.
  - replace (S k + 9)%nat with ((k mod 10 + 10) + k / 10 * 10)%nat by lia.
    replace (k + 9)%nat with ((k mod 10 + 9) + k / 10 * 10)%nat by lia.
    rewrite !Nat.div_add by lia.
    assert (H1 : ((k mod 10 + 10) / 10 = 1)%nat).
    { symmetry. apply Nat.div_unique with (r := (k mod 10)%nat); lia. }
    assert (H2 : ((k mod 10 + 9) / 10 = 1)%nat).
    { symmetry. apply Nat.div_unique with (r := (k mod 10 - 1)%nat); lia. }
    lia.
Qed.

Lemma printed_lines (k : nat) :
  length (List.filter is_print (concat (map iter_events' (seq 0 k)))) = ((k + 9) / 10)%nat.
Proof.
  induction k as [|k IH]; [reflexivity|].
  rewrite seq_S, map_app, concat_app, List.filter_app, length_app, IH, tenth_step.
  f_equal. cbn [map concat Nat.add]. rewrite app_nil_r. unfold iter_events.
  destruct (k mod 10 =? 0)%nat; reflexivity.
Qed.

Lemma run_loop_prints (max_iter : nat) :
  let st := run_loop forward backward optim_step lsub abs_lt inf vars0 max_iter in
  length (List.filter is_print (ls_trace st)) = ((ls_iters st + 9) / 10)%nat.
Proof.
  cbv zeta.
  destruct (run_loop_spec forward backward optim_step lsub abs_lt inf vars0 max_iter)
    as (_ & Htr & _).
  rewrite Htr. apply printed_lines.
Qed.

End PrintFacts.

Section RegistrationPrints.

Import Classic.

Context {Q_ V Img Opt L : Type}.
Variable lsub : L -> L -> L.
Variable abs_lt : L -> bool.
Variable inf : L.
Variable pull : Q_ -> Img.
Variable loss : Img -> Img -> L.
Variable backward : L -> Q_ * Opt -> Q_ * Opt.
Variable optim_step : Q_ * Opt -> Q_ * Opt.
Variable pull_v : Q_ -> V -> Img.
Variable image_loss : Img -> Img -> L.
Variable vel_loss : V -> L.
Variable ladd : L -> L -> L.
Variable ltenth : L -> L.
Variable backward_v : L -> Q_ * V * Opt -> Q_ * V * Opt.
Variable optim_step_v : Q_ * V * Opt -> Q_ * V * Opt.
Variable target : Img.

(** X7. A loop of [affine] or [diffeo] that ran [k] iterations printed
    its progress line [ceil(k / 10)] times: once for each of the
    iterations 0, 10, 20, ... that it entered. *)
Theorem registration_loops_print_every_tenth
        (max_iter : nat) (s0 : Q_ * Opt) (s0_v : Q_ * V * Opt) :
  let st := affine_loop lsub abs_lt inf pull loss backward optim_step target
                        max_iter s0 in
  let st_v := diffeo_loop lsub abs_lt inf pull_v image_loss vel_loss ladd ltenth
                          backward_v optim_step_v target max_iter s0_v in
  length (List.filter is_print (ls_trace st)) = ((ls_iters st + 9) / 10)%nat
  /\ length (List.filter is_print (ls_trace st_v)) = ((ls_iters st_v + 9) / 10)%nat.
Proof.
  cbv zeta. split.
  - apply (run_loop_prints (affine_forward pull loss target) backward optim_step
             lsub abs_lt inf s0 max_iter).
  - apply (run_loop_prints
             (diffeo_forward pull_v image_loss vel_loss ladd ltenth target)
             backward_v optim_step_v lsub abs_lt inf s0_v max_iter).
Qed.

End RegistrationPrints.

(** ** [nll] and [derivatives], voxel by voxel *)

Section VoxelFacts.

Import Phase.
Local Open Scope R_scope.

Variables (magnitude phase fit_log_magnitude fit_phase : list R).

Local Abbreviation D := (derivatives magnitude phase fit_log_magnitude fit_phase).

Local Abbreviation voxel' := (voxel magnitude phase fit_log_magnitude fit_phase).

Ltac lookups :=
  unfold voxel, nll, derivatives, tmul, tadd, tsub, tscale; cbn [fst snd];
  repeat (rewrite lookup_zip_with || rewrite list_lookup_fmap);
  destruct (magnitude !! _) as [m|]; destruct (phase !! _) as [p|];
  destruct (fit_log_magnitude !! _) as [fl|]; destruct (fit_phase !! _) as [f|];
  cbn; try reflexivity.

Lemma nll_lookup (i : nat) :
  nll magnitude phase fit_log_magnitude fit_phase !! i
  = '(m, p, fl, f) ← voxel' i;
    Some (5 / 10 * (m * m + exp fl * exp fl)
          - exp fl * ((cos p * cos f + sin p * sin f) * m)).
Proof. lookups. Qed.

Lemma g0_lookup (i : nat) :
  fst (snd (fst D)) !! i
  = '(m, p, fl, f) ← voxel' i;
    Some (exp fl * (exp fl - (cos p * cos f + sin p * sin f) * m)).
Proof. lookups. Qed.

Lemma g1_lookup (i : nat) :
  snd (snd (fst D)) !! i
  = '(m, p, fl, f) ← voxel' i;
    Some (exp fl * ((cos p * sin f - sin p * cos f) * m)).
Proof. lookups. Qed.

Lemma half_sq_dist_expand (m p e f : R) :
  half_sq_dist m p e f
  = 5 / 10 * (m * m + e * e) - e * ((cos p * cos f + sin p * sin f) * m).
Proof.
  transitivity (5 / 10 * (m * m * (cos p * cos p + sin p * sin p)
                          + e * e * (cos f * cos f + sin f * sin f))
                - e * ((cos p * cos f + sin p * sin f) * m)).
  - unfold half_sq_dist, Rsqr. field.
  - rewrite !cos_sin_unit. ring.
Qed.

(** X8. In exact arithmetic, what [nll] evaluates in a voxel of magnitude
    [m], phase [p], fitted log-magnitude [fl] and fitted phase [f] is
    half the squared distance between the observed complex signal
    [m exp(i p)] and the fitted one [exp(fl) exp(i f)]. *)
Theorem nll_is_half_squared_distance (i : nat) (m p fl f : R) :
  voxel magnitude phase fit_log_magnitude fit_phase i = Some (m, p, fl, f) ->
  nll magnitude phase fit_log_magnitude fit_phase !! i
  = Some (half_sq_dist m p (exp fl) f).
Proof.
  intros Hv. rewrite nll_lookup, Hv. cbn. rewrite half_sq_dist_expand. reflexivity.
Qed.

(** X10. The gradient in a voxel: with [e = exp(fl)], the log-magnitude
    entry is [e * (e - m cos(p - f))] and the phase entry is
    [e * m * sin(f - p)]. *)
Theorem derivatives_gradient_voxel (i : nat) (m p fl f : R) :
  voxel magnitude phase fit_log_magnitude fit_phase i = Some (m, p, fl, f) ->
  fst (snd (fst (derivatives magnitude phase fit_log_magnitude fit_phase))) !! i
  = Some (exp fl * (exp fl - m * cos (p - f)))
  /\ snd (snd (fst (derivatives magnitude phase fit_log_magnitude fit_phase))) !! i
     = Some (exp fl * m * sin (f - p)).
Proof.
  intros Hv. rewrite g0_lookup, g1_lookup, Hv. cbn.
  rewrite cos_minus, sin_minus. split; f_equal; ring.
Qed.

End VoxelFacts.

Lemma nll_is_half_squared_distance_witness :
  Phase.voxel [2]%R [0]%R [0]%R [1]%R 0 = Some (2, 0, 0, 1)%R
  /\ Phase.nll [2]%R [0]%R [0]%R [1]%R !! 0%nat
     = Some (Phase.half_sq_dist 2 0 (exp 0) 1).
Proof.
  split; [reflexivity|].
  exact (nll_is_half_squared_distance [2]%R [0]%R [0]%R [1]%R 0 2%R 0%R 0%R 1%R eq_refl).
Defined.

Lemma derivatives_gradient_voxel_witness :
  Phase.voxel [2]%R [0]%R [0]%R [1]%R 0 = Some (2, 0, 0, 1)%R
  /\ fst (snd (fst (Phase.derivatives [2]%R [0]%R [0]%R [1]%R))) !! 0%nat
     = Some (exp 0 * (exp 0 - 2 * cos (0 - 1)))%R
  /\ snd (snd (fst (Phase.derivatives [2]%R [0]%R [0]%R [1]%R))) !! 0%nat
     = Some (exp 0 * 2 * sin (1 - 0))%R.
Proof.
  split; [reflexivity|].
  exact (derivatives_gradient_voxel [2]%R [0]%R [0]%R [1]%R 0 2%R 0%R 0%R 1%R eq_refl).
Defined.

(** ** [mean_phase], further *)

Section MeanPhaseMore.

Import Phase.
Local Open Scope R_scope.

Lemma tsum_tmul_scale (c : R) (x w : list R) :
  tsum (tmul x (map (Rmult c) w)) = c * tsum (tmul x w).
Proof.
  revert w. induction x as [|a x IH]; intros [|b w]; cbn; try lra.
  unfold tsum, tmul in IH. rewrite IH. lra.
Qed.

Lemma tsum_scale (c : R) (w : list R) : tsum (map (Rmult c) w) = c * tsum w.
Proof.
  induction w as [|b w IH]; cbn; [lra|]. unfold tsum in IH. rewrite IH. lra.
Qed.

(** X13. Only the proportions of the weights count: multiplying every
    weight by a positive constant does not change the mean phase. *)
Theorem mean_phase_weight_scale (phase weight : list R) (c : R) :
  0 < c ->
  tsum weight <> 0 ->
  mean_phase phase (Some (map (Rmult c) weight)) = mean_phase phase (Some weight).
Proof.
  intros Hc Hw. unfold mean_phase.
  rewrite !tsum_tmul_scale, tsum_scale.
  f_equal; field; split; lra.
Qed.

Lemma tsum_tmul_replicate (f : R -> R) (t : R) (w : list R) :
  tsum (tmul (map f (replicate (length w) t)) w) = f t * tsum w.
Proof.
  induction w as [|b w IH]; cbn; [lra|].
  unfold tsum, tmul in IH. rewrite IH. lra.
Qed.

(** X14. With weights, a uniform field of value [t] in (-PI, PI] still
    has mean phase [t], as long as the weights do not sum to zero. *)
Theorem mean_phase_uniform_weighted (t : R) (weight : list R) :
  - PI < t <= PI ->
  tsum weight <> 0 ->
  mean_phase (replicate (length weight) t) (Some weight) = t.
Proof.
  intros Ht Hw. unfold mean_phase. rewrite !tsum_tmul_replicate.
  replace (cos t * tsum weight / tsum weight) with (cos t) by (field; exact Hw).
  replace (sin t * tsum weight / tsum weight) with (sin t) by (field; exact Hw).
  apply atan2_sin_cos. exact Ht.
Qed.

End MeanPhaseMore.

Lemma mean_phase_weight_scale_witness :
  (0 < 2)%R /\ Phase.tsum [1; 3]%R <> 0%R
  /\ Phase.mean_phase [0; 1]%R (Some (map (Rmult 2) [1; 3]%R))
     = Phase.mean_phase [0; 1]%R (Some [1; 3]%R).
Proof.
  assert (H : Phase.tsum [1; 3]%R <> 0%R) by (cbn; lra).
  split; [lra|]. split; [exact H|].
  apply (mean_phase_weight_scale [0; 1]%R [1; 3]%R 2%R); [lra|exact H].
Defined.

Lemma mean_phase_uniform_weighted_witness :
  (- PI < 0 <= PI)%R /\ Phase.tsum [1; 3]%R <> 0%R
  /\ Phase.mean_phase (replicate (length [1; 3]%R) 0%R) (Some [1; 3]%R) = 0%R.
Proof.
  assert (Ht : (- PI < 0 <= PI)%R) by (pose proof PI_RGT_0; lra).
  assert (H : Phase.tsum [1; 3]%R <> 0%R) by (cbn; lra).
  split; [exact Ht|]. split; [exact H|].
  exact (mean_phase_uniform_weighted 0%R [1; 3]%R Ht H).
Defined.

(** ** [phase_fit], further *)

Section PhaseFitMore.

Import Phase.
Local Open Scope R_scope.

Variable regulariser : list R * list R -> prm -> list R * list R.
Variable solve_field_fmg :
  list R * list R -> list R * list R -> prm -> list R * list R.
Variables (magnitude phase : list R).
Variable prec : R.
Variables (m1 b1 : R).

Local Abbreviation body :=
  (fit_body regulariser solve_field_fmg magnitude phase prec m1 b1).

(** The first iteration compares with an infinite objective and goes on. *)
Lemma first_iteration_goes_on (st : fit_state) : snd (body 0 st) = false.
Proof.
  unfold fit_body. destruct (derivatives _ _ _ _) as [[ll g] h].
  cbn [Nat.eqb xlift2]. destruct (ll0 st); reflexivity.
Qed.

End PhaseFitMore.

(** X15. [phase_fit] never stops after its first iteration: the first
    gain is infinite, so at least two iterations are run. *)
Theorem phase_fit_runs_twice
        (estimate_noise_sd : list R -> R)
        (regulariser : list R * list R -> Phase.prm -> list R * list R)
        (solve_field_fmg : list R * list R -> list R * list R -> Phase.prm -> list R * list R)
        (magnitude phase : list R) (lam : R * R) (penalty : string * string) :
  (2 <= length (Phase.used
                  (Phase.phase_fit_run estimate_noise_sd regulariser solve_field_fmg
                                       magnitude phase lam penalty)))%nat.
Proof.
  unfold Phase.phase_fit_run. cbv zeta.
  set (m0 := (fst lam * Phase.int_eq (fst penalty) "membrane")%R).
  set (m1 := (snd lam * Phase.int_eq (snd penalty) "membrane")%R).
  set (b0 := (fst lam * Phase.int_eq (fst penalty) "bending")%R).
  set (b1 := (snd lam * Phase.int_eq (snd penalty) "bending")%R).
  set (prec := (1 / _)%R). set (st0 := Phase.mkFit _ _ _ _ _ _).
  change (Phase.get_last (Phase.membrane (Phase.initial_prm lam penalty))) with m1.
  change (Phase.get_last (Phase.bending (Phase.initial_prm lam penalty))) with b1.
  assert (Hshape : Phase.opts_shape m0 b0 (Phase.opts st0))
    by (repeat split; eexists; reflexivity).
  change (Phase.fit_loop regulariser solve_field_fmg magnitude phase prec m1 b1 20 0 st0)
    with (let '(st', stop) :=
            Phase.fit_body regulariser solve_field_fmg magnitude phase prec m1 b1 0 st0 in
          if stop then st'
          else Phase.fit_loop regulariser solve_field_fmg magnitude phase prec m1 b1 19 1 st').
  pose proof (first_iteration_goes_on regulariser solve_field_fmg magnitude phase
                prec m1 b1 st0) as Hgo.
  destruct (fit_body_opts regulariser solve_field_fmg magnitude phase prec m0 m1 b0 b1
              0 st0 Hshape) as [Ho Hu].
  destruct (Phase.fit_body _ _ _ _ _ _ _ 0 st0) as [st' stop].
  cbn [fst snd] in Hgo, Ho, Hu. subst stop.
  assert (Hshape' : Phase.opts_shape m0 b0 (Phase.opts st'))
    by (rewrite Ho; repeat split; eexists; reflexivity).
  destruct (fit_loop_used regulariser solve_field_fmg magnitude phase prec m0 m1 b0 b1
              19 1 st' Hshape' Hu) as [_ Hlen].
  cbn [Nat.min Nat.add] in Hlen. lia.
Qed.

(** ** Unit conversions *)

Section ConversionFacts.

Import Phase.
Local Open Scope R_scope.

Lemma b0_rad_to_hz_formula (phase : list R) (delta_te dwell delta_frequency : R) :
  b0_rad_to_hz phase delta_te dwell delta_frequency
  = map (fun p => p / (delta_te * dwell * 2 * PI) + delta_frequency) phase.
Proof.
  unfold b0_rad_to_hz. destruct (Req_dec_T delta_frequency 0) as [->|_].
  - apply map_ext. intros p. lra.
  - rewrite map_map. reflexivity.
Qed.

(** X16. The two conversions lose nothing: for non-zero echo-time
    difference, dwell time and bandwidth, the phase image is recovered
    from the displacement map by undoing the three scalings and the
    frequency offset. *)
Theorem b0_conversions_invertible
        (phase : list R) (delta_te dwell delta_frequency bandwidth : R) :
  delta_te <> 0 -> dwell <> 0 -> bandwidth <> 0 ->
  map (fun d => (d * bandwidth - delta_frequency) * (delta_te * dwell * 2 * PI))
      (b0_hz_to_vox (b0_rad_to_hz phase delta_te dwell delta_frequency) bandwidth)
  = phase.
Proof.
  intros Hte Hdw Hbw. pose proof PI_RGT_0 as Hpi.
  rewrite b0_rad_to_hz_formula. unfold b0_hz_to_vox. rewrite !map_map.
  rewrite <- (map_id phase) at 2. apply map_ext. intros p.
  field. repeat split; lra.
Qed.

End ConversionFacts.

Lemma b0_conversions_invertible_witness :
  (1 / 100 <> 0)%R /\ (1 / 1000 <> 0)%R /\ (1000 <> 0)%R
  /\ map (fun d => (d * 1000 - 0) * (1 / 100 * (1 / 1000) * 2 * PI))%R
         (Phase.b0_hz_to_vox (Phase.b0_rad_to_hz [2 * PI]%R (1 / 100) (1 / 1000) 0) 1000)
     = [2 * PI]%R.
Proof.
  split; [lra|]. split; [lra|]. split; [lra|].
  apply (b0_conversions_invertible [2 * PI]%R (1 / 100)%R (1 / 1000)%R 0%R 1000%R); lra.
Defined.

(** ** [ordered_set] and the shared settings *)

Section OrderedSetFacts.

Import Gui.
Context {A : Type} `{EqDecision A}.

Lemma add_key_NoDup (keys : list A) (v : A) : NoDup keys -> NoDup (add_key keys v).
Proof.
  intros Hk. unfold add_key. destruct (decide (v ∈ keys)) as [Hin|Hin]; [exact Hk|].
  apply NoDup_app. split; [exact Hk|]. split; [|apply NoDup_singleton].
  intros x Hx Hx'. apply list_elem_of_singleton in Hx'. subst. contradiction.
Qed.

Lemma add_key_elem (keys : list A) (v x : A) : x ∈ add_key keys v <-> x ∈ keys \/ x = v.
Proof.
  unfold add_key. destruct (decide (v ∈ keys)) as [Hin|Hin].
  - split; [auto|]. intros [Hx| ->]; assumption.
  - rewrite elem_of_app, list_elem_of_singleton. reflexivity.
Qed.

Lemma add_key_head (keys : list A) (v k : A) : head keys = Some k -> head (add_key keys v) = Some k.
Proof.
  unfold add_key. destruct (decide (v ∈ keys)); [auto|].
  destruct keys; [discriminate|auto].
Qed.

Lemma foldl_add_key (values keys : list A) :
  NoDup keys ->
  NoDup (foldl add_key keys values)
  /\ (forall x, x ∈ foldl add_key keys values <-> x ∈ keys \/ x ∈ values)
  /\ (forall k, head keys = Some k -> head (foldl add_key keys values) = Some k).
Proof.
  revert keys. induction values as [|v values IH]; intros keys Hk; cbn [foldl].
  - split; [exact Hk|]. split; [|auto].
    intros x. rewrite elem_of_nil. tauto.
  - destruct (IH (add_key keys v) (add_key_NoDup keys v Hk)) as (Hnd & Hel & Hhd).
    split; [exact Hnd|]. split.
    + intros x. rewrite Hel, add_key_elem, elem_of_cons. tauto.
    + intros k Hhead. apply Hhd, add_key_head, Hhead.
Qed.

(** X17. [ordered_set] keeps every value once: its result has no
    duplicate, holds exactly the values given, and starts with the first
    value given. *)
Theorem ordered_set_spec (values : list A) :
  NoDup (ordered_set values)
  /\ (forall x, x ∈ ordered_set values <-> x ∈ values)
  /\ head (ordered_set values) = head values.
Proof.
  unfold ordered_set.
  destruct (foldl_add_key values [] (NoDup_nil_2)) as (Hnd & Hel & _).
  split; [exact Hnd|]. split.
  - intros x. rewrite Hel, elem_of_nil. tauto.
  - destruct values as [|v values]; [reflexivity|]. cbn [foldl head].
    destruct (foldl_add_key values (add_key [] v)) as (_ & _ & Hhd).
    + apply add_key_NoDup, NoDup_nil_2.
    + apply Hhd. reflexivity.
Qed.

Lemma first_distinct_head (values : list A) :
  first_distinct values = match values with v :: _ => Ok v | [] => Raise IndexError end.
Proof.
  unfold first_distinct. destruct (ordered_set_spec values) as (_ & _ & Hhd).
  destruct values as [|v values]; destruct (ordered_set _); cbn in Hhd; congruence.
Qed.

End OrderedSetFacts.

Section LayoutFacts.

Import Gui.

(** X18. Reading [layout] on the viewer gives the layout of the first
    image, whatever the other images hold, and [IndexError] when the
    viewer has no image. *)
Theorem layout_get_first (images : list display) :
  layout_get images
  = match images with
    | image :: _ => Ok (d_layout image)
    | [] => Raise IndexError
    end.
Proof.
  unfold layout_get. rewrite first_distinct_head. destruct images; reflexivity.
Qed.

(** X19. Assigning [layout] on the viewer: a value whose lower case is
    'row', 'col' or 'orth' is stored in lower case in every image, the
    modes being untouched, and is what the viewer then reads when it has
    an image; any other value raises [ValueError]. *)
Theorem layout_set_spec (images : list display) (value : string) :
  (lower value ∈ ["row"; "col"; "orth"] ->
   exists images',
     layout_set images value = Ok images'
     /\ map d_layout images' = replicate (length images) (lower value)
     /\ map d_mode images' = map d_mode images
     /\ (images <> [] -> layout_get images' = Ok (lower value)))
  /\ (lower value ∉ ["row"; "col"; "orth"] ->
      layout_set images value = Raise ValueError).
Proof.
  unfold layout_set. split; intros Hv.
  - rewrite bool_decide_eq_true_2 by exact Hv. cbn [negb].
    eexists. split; [reflexivity|]. rewrite !map_map. cbn [d_layout d_mode].
    split; [|split; [reflexivity|]].
    + induction images as [|a images IH]; cbn; [reflexivity|]. rewrite IH. reflexivity.
    + intros Hne. rewrite layout_get_first.
      destruct images; [contradiction|reflexivity].
  - rewrite bool_decide_eq_false_2 by exact Hv. reflexivity.
Qed.

Lemma propagate_layout_all (images : list display) (self : nat) (me : display) :
  images !! self = Some me ->
  map d_layout (propagate_layout images self) = replicate (length images) (d_layout me)
  /\ map d_mode (propagate_layout images self) = map d_mode images.
Proof.
  intros Hme. unfold propagate_layout. rewrite Hme.
  assert (Hgen : forall (l : list display) (k : nat),
            (forall j a, l !! j = Some a -> k + j = self -> a = me) ->
            map d_layout (imap (fun j image => if decide (k + j = self) then image
                                     else mkDisplay (d_layout me) (d_mode image)) l)
            = replicate (length l) (d_layout me)
            /\ map d_mode (imap (fun j image => if decide (k + j = self) then image
                                     else mkDisplay (d_layout me) (d_mode image)) l)
               = map d_mode l).
  { induction l as [|a l IH]; intros k Hk; [split; reflexivity|].
    cbn [imap map length replicate].
    destruct (IH (S k)) as [IH1 IH2].
    { intros j b Hb Hj. apply (Hk (S j) b Hb). lia. }
    assert (E : imap ((fun j image => if decide (k + j = self) then image
                        else mkDisplay (d_layout me) (d_mode image)) ∘ S) l
                = imap (fun j image => if decide (S k + j = self) then image
                        else mkDisplay (d_layout me) (d_mode image)) l).
    { apply imap_ext. intros j b _. cbn. replace (k + S j) with (S k + j) by lia.
      reflexivity. }
    rewrite E, IH1, IH2.
    destruct (decide (k + 0 = self)) as [Hs|Hs].
    - rewrite (Hk 0 a eq_refl Hs). split; reflexivity.
    - split; reflexivity. }
  apply (Hgen images 0). intros j a Ha Hj. cbn in Hj. subst j. congruence.
Qed.

(** X20. [set_layout(value, all=True)] on one image of a viewer leaves
    every image of the viewer with the layout [value], exactly as given:
    the value is neither lower-cased nor checked.  With [all=False] only
    that image changes.  The modes are untouched. *)
Theorem set_layout_spec (images : list display) (self : nat) (value : string) :
  (self < length images)%nat ->
  map d_layout (set_layout images self value true) = replicate (length images) value
  /\ map d_mode (set_layout images self value true) = map d_mode images
  /\ map d_layout (set_layout images self value false)
     = <[self := value]> (map d_layout images)
  /\ map d_mode (set_layout images self value false) = map d_mode images.
Proof.
  intros Hself. unfold set_layout.
  destruct (lookup_lt_is_Some_2 images self Hself) as [me Hme].
  set (images1 := alter (fun me0 => mkDisplay value (d_mode me0)) self images).
  assert (H1 : images1 !! self = Some (mkDisplay value (d_mode me))).
  { unfold images1. rewrite list_lookup_alter_eq, Hme. reflexivity. }
  assert (Hlen : length images1 = length images) by apply length_alter.
  assert (Hmode : map d_mode images1 = map d_mode images).
  { unfold images1. apply list_eq. intros j.
    rewrite !list_lookup_fmap.
    destruct (decide (j = self)) as [->|Hne].
    - rewrite list_lookup_alter_eq, Hme. reflexivity.
    - rewrite list_lookup_alter_ne by congruence. reflexivity. }
  destruct (propagate_layout_all images1 self _ H1) as [Hp1 Hp2].
  split; [rewrite Hp1, Hlen; reflexivity|].
  split; [rewrite Hp2; exact Hmode|].
  split; [|exact Hmode].
  unfold images1. apply list_eq. intros j. rewrite list_lookup_fmap.
  destruct (decide (j = self)) as [->|Hne].
  - rewrite list_lookup_alter_eq, Hme, list_lookup_insert_eq by (rewrite length_map; exact Hself).
    reflexivity.
  - rewrite list_lookup_alter_ne, list_lookup_insert_ne, list_lookup_fmap by congruence.
    reflexivity.
Qed.

(** X21. After [set_layout(value, all=True)] with a value that is not
    one of 'row', 'col', 'orth', the viewer reads that value as its
    layout and the automatic grid of a viewer with no fixed grid fails
    its assertion, whatever the figure and the number of images. *)
Theorem unchecked_layout_breaks_grid
        (images : list display) (self : nat) (value : string)
        (fig_size : IEEE.float * IEEE.float) (nb_image : Z) :
  (self < length images)%nat ->
  value ∉ ["row"; "col"; "orth"] ->
  layout_get (set_layout images self value true) = Ok value
  /\ _grid_auto (None, None) value fig_size nb_image = Raise AssertionError.
Proof.
  intros Hself Hv. split.
  - destruct (set_layout_spec images self value Hself) as (Hl & _).
    rewrite layout_get_first.
    destruct (set_layout images self value true) as [|a rest] eqn:E.
    + destruct images; cbn in Hself; [lia|]. cbn in Hl. discriminate.
    + destruct images; cbn in Hself; [lia|]. cbn in Hl. congruence.
  - cbn [_grid_auto].
    destruct (String.eqb_spec value "row") as [->|_].
    { exfalso. apply Hv. set_solver. }
    destruct (String.eqb_spec value "col") as [->|_].
    { exfalso. apply Hv. set_solver. }
    destruct (String.eqb_spec value "orth") as [->|_].
    { exfalso. apply Hv. set_solver. }
    reflexivity.
Qed.

End LayoutFacts.

Lemma set_layout_spec_witness :
  let images := [Gui.mkDisplay "orth" "intensity"; Gui.mkDisplay "row" "categorical"] in
  (1 < length images)%nat
  /\ map Gui.d_layout (Gui.set_layout images 1 "Col" true) = ["Col"; "Col"]
  /\ map Gui.d_mode (Gui.set_layout images 1 "Col" true) = ["intensity"; "categorical"]
  /\ map Gui.d_layout (Gui.set_layout images 1 "Col" false) = ["orth"; "Col"]
  /\ map Gui.d_mode (Gui.set_layout images 1 "Col" false) = ["intensity"; "categorical"].
Proof.
  intros images.
  assert (H : (1 < length images)%nat) by (cbn; lia).
  split; [exact H|]. exact (set_layout_spec images 1 "Col" H).
Defined.

Lemma unchecked_layout_breaks_grid_witness :
  let images := [Gui.mkDisplay "orth" "intensity"; Gui.mkDisplay "row" "categorical"] in
  (1 < length images)%nat
  /\ ("Col" ∉ ["row"; "col"; "orth"])
  /\ Gui.layout_get (Gui.set_layout images 1 "Col" true) = Ok "Col"
  /\ Gui._grid_auto (None, None) "Col" (IEEE.Finite false 8, IEEE.Finite false 6) 2
     = Raise AssertionError.
Proof.
  intros images.
  assert (H : (1 < length images)%nat) by (cbn; lia).
  assert (Hv : "Col" ∉ ["row"; "col"; "orth"]).
  { intros Hin. repeat (apply elem_of_cons in Hin as [Hin|Hin]; [discriminate|]).
    apply elem_of_nil in Hin. exact Hin. }
  split; [exact H|]. split; [exact Hv|].
  exact (unchecked_layout_breaks_grid
           images 1 "Col" (IEEE.Finite false 8, IEEE.Finite false 6) 2 H Hv).
Defined.

(** ** The data of an [ImageArtist] *)

Section StoreFacts.

Import Gui.
Context {T : Type}.
Implicit Types (self : @store T) (m d : T).

(** X22. [clear] never touches an artist built from an array (no file
    handle): its data stay.  On an artist with a file handle it leaves
    the cache empty, and the handle and [mmap] as they were. *)
Theorem clear_spec self :
  (st_map self = None -> clear self = self)
  /\ (forall m, st_map self = Some m ->
                clear self = mkStore (Some m) None (st_mmap self)).
Proof.
  destruct self as [[m|] [d|] mm]; split; try discriminate.
  - intros m' [= <-]. reflexivity.
  - intros m' [= <-]. unfold clear, fdata. cbn. destruct mm; reflexivity.
  - reflexivity.
  - reflexivity.
Qed.

(** X23. [load] returns the cached data when there are some, else the
    data of the file handle, else [None]; it fills the cache from the file
    exactly when [mmap] is off. *)
Theorem load_spec self :
  fst (load self)
  = match st_fdata self with
    | Some d => Some d
    | None => st_map self
    end
  /\ snd (load self)
     = match st_fdata self, st_map self with
       | None, Some m => mkStore (Some m) (if st_mmap self then None else Some m)
                                 (st_mmap self)
       | _, _ => self
       end.
Proof.
  destruct self as [[m|] [d|] [|]]; split; reflexivity.
Qed.

(** X24. Setting [mmap] to true empties the cache whether or not there
    is a file handle: an artist with a handle reads the file again at each
    access without caching, and an artist built from an array has lost its
    data.  Setting it to false changes the flag only. *)
Theorem mmap_set_spec self :
  mmap_set self true = mkStore (st_map self) None true
  /\ fdata (mmap_set self true) = (st_map self, mmap_set self true)
  /\ mmap_set self false = mkStore (st_map self) (st_fdata self) false.
Proof.
  destruct self as [[m|] [d|] mm]; repeat split.
Qed.

End StoreFacts.

(** ** [fov], [index], [fov_size] and [on_scroll] *)

Section CursorFacts.

Import Gui.
Local Open Scope Q_scope.

Variable make_list : corner -> list coord.

(** X25. Whatever is assigned to [fov], no coordinate of the stored
    field of view is [None]. *)
Theorem fov_set_no_None (bbox : list Q * list Q) (value : option (corner * corner)) :
  let fov := fov_set make_list bbox value in
  Forall (fun c => c <> None) (fst fov) /\ Forall (fun c => c <> None) (snd fov).
Proof.
  cbv zeta. unfold fov_set. destruct bbox as [min0 max0].
  destruct (default (CNone, CNone) value) as [mn mx].
  assert (Hfill : forall (l : list coord) (l0 : list Q),
             Forall (fun c => c <> None)
                    (zip_with (fun m m0 => py_or m (Some m0)) l l0)).
  { induction l as [|c l IH]; intros [|c0 l0]; cbn [zip_with]; constructor; [|apply IH].
    unfold py_or. destruct (truthy c) eqn:E; [|discriminate].
    destruct c; [discriminate|]. cbn in E. discriminate. }
  assert (Hkeep : forall l : list coord,
             existsb is_None l = false -> Forall (fun c => c <> None) l).
  { induction l as [|c l IH]; cbn; intros E; constructor.
    - destruct c; [discriminate|]. cbn in E. discriminate.
    - apply IH. destruct c; cbn in E; [exact E|discriminate]. }
  destruct (existsb is_None (make_list mn) || existsb is_None (make_list mx)) eqn:E.
  - cbn [fst snd]. split; apply Hfill.
  - apply orb_false_elim in E as [E1 E2]. cbn [fst snd]. split; apply Hkeep; assumption.
Qed.

End CursorFacts.

Section CursorFacts2.

Import Gui.
Local Open Scope Q_scope.

Variable make_list : corner -> list coord.

(** X26. On a field of view whose coordinates are all numbers the
    [index] setter succeeds: a supplied coordinate is kept, a zero
    included, and an absent one becomes the midpoint of the field of view
    on its axis. *)
Theorem index_set_spec (mn mx : list Q) (value : corner) :
  index_set make_list (map Some mn, map Some mx) value
  = Ok (zip_with (fun v '(a, b) => match v with
                                   | Some q => q
                                   | None => (b + a) / 2
                                   end)
                 (make_list value) (zip mn mx)).
Proof.
  unfold index_set. cbn [fst snd]. generalize (make_list value) as vs.
  intros vs. revert mn mx.
  induction vs as [|v vs IH]; intros mn mx; [reflexivity|].
  destruct mn as [|a mn]; [reflexivity|]. destruct mx as [|b mx]; [reflexivity|].
  cbn [map zip_with mapR]. rewrite IH.
  destruct v as [q|]; reflexivity.
Qed.

(** X27. Per axis, the corners [on_scroll] computes give a field of view
    whose extent is the old one times [step_size], in which the cursor
    keeps its relative place. *)
Theorem scroll_corners_scale (index mn mx : list Q) (s : Q) (k : nat) (i a b : Q) :
  index !! k = Some i -> mn !! k = Some a -> mx !! k = Some b ->
  exists a' b',
    fst (scroll_corners index mn mx s) !! k = Some a'
    /\ snd (scroll_corners index mn mx s) !! k = Some b'
    /\ b' - a' == s * (b - a)
    /\ i - a' == s * (i - a).
Proof.
  intros Hi Ha Hb. unfold scroll_corners. cbn [fst snd].
  exists (i - s * (i - a)), (i - s * (i - a) + s * (b - a)).
  assert (H1 : zip_with (fun i0 mn0 => i0 - s * (i0 - mn0)) index mn !! k
               = Some (i - s * (i - a))).
  { rewrite lookup_zip_with, Hi, Ha. reflexivity. }
  assert (H2 : zip mn mx !! k = Some (a, b)).
  { rewrite lookup_zip_with, Ha, Hb. reflexivity. }
  split; [exact H1|]. split.
  - rewrite lookup_zip_with, H1, H2. reflexivity.
  - split; ring.
Qed.

End CursorFacts2.

Lemma scroll_corners_scale_witness :
  [5; 5; 5]%Q !! 1%nat = Some 5%Q
  /\ [0; 0; 0]%Q !! 1%nat = Some 0%Q
  /\ [10; 20; 30]%Q !! 1%nat = Some 20%Q
  /\ exists a' b',
      fst (Gui.scroll_corners [5; 5; 5]%Q [0; 0; 0]%Q [10; 20; 30]%Q (1 # 2)) !! 1%nat = Some a'
      /\ snd (Gui.scroll_corners [5; 5; 5]%Q [0; 0; 0]%Q [10; 20; 30]%Q (1 # 2)) !! 1%nat = Some b'
      /\ (b' - a' == (1 # 2) * (20 - 0))%Q
      /\ (5 - a' == (1 # 2) * (5 - 0))%Q.
Proof.
  split; [reflexivity|]. split; [reflexivity|]. split; [reflexivity|].
  apply (scroll_corners_scale [5; 5; 5]%Q [0; 0; 0]%Q [10; 20; 30]%Q (1 # 2)%Q 1);
    reflexivity.
Defined.

Section FovSizeFacts.

Import Gui.
Local Open Scope Q_scope.

Lemma truthy_nonzero (q : Q) : ~ q == 0 -> truthy (Some q) = true.
Proof.
  intros H. cbn. destruct (Qeq_bool q 0) eqn:E; [|reflexivity].
  apply Qeq_bool_eq in E. contradiction.
Qed.

(** X28. Assigning the sizes [(v1, v2, v3)], none of them zero, to
    [fov_size] with the cursor at [(i1, i2, i3)] stores the field of view
    from [i - v/2] to [i + v/2] on each axis: reading [fov_size] back
    gives the sizes assigned, and the midpoint of the field of view (what
    an [index] assigned [None] becomes) is the cursor. *)
Theorem fov_size_round_trip (bbox : list Q * list Q) (i1 i2 i3 v1 v2 v3 : Q) :
  ~ v1 == 0 -> ~ v2 == 0 -> ~ v3 == 0 ->
  let fov := fov_size_set make_list3 bbox [i1; i2; i3]
                          (CSeq [Some v1; Some v2; Some v3]) in
  fov = ([Some (i1 - v1 / 2); Some (i2 - v2 / 2); Some (i3 - v3 / 2)],
         [Some (i1 + v1 / 2); Some (i2 + v2 / 2); Some (i3 + v3 / 2)])
  /\ (exists sizes, fov_size fov = Ok sizes /\ Forall2 Qeq sizes [v1; v2; v3])
  /\ (exists mid, index_set make_list3 fov CNone = Ok mid
                  /\ Forall2 Qeq mid [i1; i2; i3]).
Proof.
  intros H1 H2 H3. cbv zeta.
  assert (E : fov_size_set make_list3 bbox [i1; i2; i3] (CSeq [Some v1; Some v2; Some v3])
              = ([Some (i1 - v1 / 2); Some (i2 - v2 / 2); Some (i3 - v3 / 2)],
                 [Some (i1 + v1 / 2); Some (i2 + v2 / 2); Some (i3 + v3 / 2)])).
  { unfold fov_size_set, fov_size_corners. cbn [make_list3 length Nat.sub replicate app take].
    cbn [zip_with]. rewrite !truthy_nonzero by assumption. cbn [default].
    unfold fov_set. destruct bbox as [min0 max0]. reflexivity. }
  rewrite E. split; [reflexivity|]. split.
  - eexists. split; [reflexivity|]. repeat constructor; field.
  - eexists. split; [reflexivity|]. repeat constructor; field.
Qed.

End FovSizeFacts.

Lemma fov_size_round_trip_witness :
  let fov := Gui.fov_size_set Gui.make_list3 ([-5; -7; -9], [5; 7; 9])%Q [1; 2; 3]%Q
               (Gui.CSeq [Some 2%Q; Some 4%Q; Some 6%Q]) in
  (~ 2 == 0)%Q /\ (~ 4 == 0)%Q /\ (~ 6 == 0)%Q
  /\ fov = ([Some (1 - 2 / 2); Some (2 - 4 / 2); Some (3 - 6 / 2)],
            [Some (1 + 2 / 2); Some (2 + 4 / 2); Some (3 + 6 / 2)])%Q
  /\ (exists sizes, Gui.fov_size fov = Ok sizes /\ Forall2 Qeq sizes [2; 4; 6]%Q)
  /\ (exists mid, Gui.index_set Gui.make_list3 fov Gui.CNone = Ok mid
                  /\ Forall2 Qeq mid [1; 2; 3]%Q).
Proof.
  intros fov.
  assert (H2 : (~ 2 == 0)%Q) by discriminate.
  assert (H4 : (~ 4 == 0)%Q) by discriminate.
  assert (H6 : (~ 6 == 0)%Q) by discriminate.
  split; [exact H2|]. split; [exact H4|]. split; [exact H6|].
  exact (fov_size_round_trip ([-5; -7; -9], [5; 7; 9])%Q 1 2 3 2 4 6 H2 H4 H6).
Defined.

(** ** [grid] and [_grid_auto], further *)

Section GridMore.

Import Gui.
Local Open Scope Q_scope.

(** X29. A grid given with both dimensions is accepted by the setter
    exactly when their product is the number of images, and [_grid_auto]
    then returns it as it is, for every layout and figure size; any other
    product raises [ValueError]. *)
Theorem grid_set_both (nb_images gx gy : Z) :
  ((gx * gy)%Z = nb_images ->
   grid_set nb_images (Some [Some gx; Some gy]) = Ok (Some gx, Some gy)
   /\ forall layout fig_size,
       _grid_auto (Some gx, Some gy) layout fig_size nb_images = Ok (Some gx, Some gy))
  /\ ((gx * gy)%Z <> nb_images ->
      grid_set nb_images (Some [Some gx; Some gy]) = Raise ValueError).
Proof.
  unfold grid_set. split; intros H.
  - rewrite (proj2 (Z.eqb_eq _ _) H). split; reflexivity.
  - rewrite (proj2 (Z.eqb_neq _ _) H). reflexivity.
Qed.

(** X30. On counts below [2 ^ 53] the grid [_grid_auto] returns wastes
    no whole line.  With no dimension fixed, or the rows fixed, it has
    at least one row and one column and its last column is in use:
    [rows * (cols - 1) < N]; with the columns fixed its last row is in
    use: [(rows - 1) * cols < N].  With no dimension fixed there are at
    most [N] rows. *)
Theorem grid_auto_no_spare_line
        (grid : option Z * option Z) (layout : string)
        (fig_size : IEEE.float * IEEE.float) (nb_image : Z) :
  exact_count nb_image ->
  layout = "row"%string \/ layout = "col"%string \/ layout = "orth"%string ->
  grid_open grid ->
  exists rows cols,
    _grid_auto grid layout fig_size nb_image = Ok (Some rows, Some cols)
    /\ (1 <= rows)%Z /\ (1 <= cols)%Z
    /\ match grid with
       | (None, Some _) => ((rows - 1) * cols < nb_image)%Z
       | (None, None) => (rows * (cols - 1) < nb_image)%Z /\ (rows <= nb_image)%Z
       | _ => (rows * (cols - 1) < nb_image)%Z
       end.
Proof.
  intros HN Hlay Hgrid.
  destruct (grid_auto_fits grid layout fig_size nb_image HN Hlay Hgrid)
    as (rows & cols & Hok & _ & Hrows & Hcols & Hline).
  exists rows, cols. repeat split; assumption.
Qed.

End GridMore.

Lemma grid_auto_no_spare_line_witness :
  Gui.exact_count 7 /\ Gui.grid_open (None, Some 2%Z)
  /\ exists rows cols,
      Gui._grid_auto (None, Some 2%Z) "col" (IEEE.Finite false 8, IEEE.Finite false 6) 7
      = Ok (Some rows, Some cols)
      /\ (1 <= rows)%Z /\ (1 <= cols)%Z /\ ((rows - 1) * cols < 7)%Z.
Proof.
  assert (H7 : Gui.exact_count 7) by (unfold Gui.exact_count; lia).
  assert (Hg : Gui.grid_open (None, Some 2%Z)) by (cbn; unfold Gui.exact_count; lia).
  split; [exact H7|]. split; [exact Hg|].
  apply (grid_auto_no_spare_line
           (None, Some 2%Z) "col" (IEEE.Finite false 8, IEEE.Finite false 6) 7%Z);
    [exact H7 | right; left; reflexivity | exact Hg].
Defined.

Example index_set_keeps_zero :
  Gui.index_set Gui.make_list3 ([Some (-5); Some (-7); Some (-9)], [Some 5; Some 7; Some 11])%Q
                (Gui.CSeq [Some 0%Q; None; None])
  = Ok [0; (7 + -7) / 2; (11 + -9) / 2]%Q.
Proof. reflexivity. Qed.

(** The conversion of a phase of [2 PI] with an echo-time difference of
    0.01 s, a dwell time of 0.001 s and a bandwidth of 1000 Hz per pixel:
    100000 Hz, that is 100 voxels. *)
Example b0_conversion_2PI :
  Phase.b0_hz_to_vox
    (Phase.b0_rad_to_hz [2 * PI]%R (1 / 100)%R (1 / 1000)%R 0%R) 1000%R
  = [100%R].
Proof.
  rewrite b0_rad_to_hz_formula. cbn [Phase.b0_hz_to_vox map]. f_equal.
  pose proof PI_RGT_0. field. lra.
Qed.
